(** * Tile arithmetic of libosmium: [include/osmium/geom/tile.hpp]

  A shallow embedding of the header's free functions and of the [Tile]
  value type, followed by the properties its specification states.

  - [uint32_t] and [int32_t] are integers of [Z] with the wrap-around and
    the conversions written out.
  - [double] is IEEE-754 binary64 with round-to-nearest-even: a value is
    NaN, an infinity or a finite rational, and every operation rounds its
    exact result to 53 significant bits (gradual underflow below
    [2^-1022], overflow to infinity from [2^1024]).
  - A computation yields an [outcome]: a value, a failed [assert] of a
    debug build, or undefined behaviour (a [double] converted to
    [int32_t] whose truncation does not fit). *)

From Stdlib Require Import ZArith QArith Qround Qabs Qpower Qreduction.
From Stdlib Require Import Lia Lqa Bool.

#[local] Open Scope Z_scope.

(** ** Outcomes of a computation *)

Inductive outcome (A : Type) : Type :=
| Value (a : A)
| AssertionFailed
| Undefined.

Arguments Value {A} a.
Arguments AssertionFailed {A}.
Arguments Undefined {A}.

Definition bind {A B : Type} (c : outcome A) (k : A -> outcome B) : outcome B :=
  match c with
  | Value a => k a
  | AssertionFailed => AssertionFailed
  | Undefined => Undefined
  end.

Notation "v <- c ;; k" := (bind c (fun v => k))
  (at level 61, c at next level, right associativity).
Notation "c ;;; k" := (bind c (fun _ => k))
  (at level 61, right associativity).

(** [assert(b)] of <cassert>, assertions enabled. *)
Definition assert (b : bool) : outcome unit :=
  if b then Value tt else AssertionFailed.

(** ** 32-bit integers *)

Definition uint32_modulus : Z := 2 ^ 32.
Definition int32_min : Z := - 2 ^ 31.
Definition int32_max : Z := 2 ^ 31 - 1.

(** The value a [uint32_t] holds after an arithmetic result [n]. *)
Definition wrap_uint32 (n : Z) : Z := n mod uint32_modulus.

(** Conversion to [int32_t] of an integer value (two's complement). *)
Definition to_int32 (n : Z) : Z :=
  let m := n mod uint32_modulus in
  if m <=? int32_max then m else m - uint32_modulus.

(** [static_cast<uint32_t>] of an [int32_t]. *)
Definition static_cast_uint32 (n : Z) : Z := wrap_uint32 n.

(** ** IEEE-754 binary64 *)

Module Binary64.

#[local] Open Scope Q_scope.

Definition prec : Z := 53.
Definition emin : Z := -1074.
Definition emax : Z := 1024.

Definition pow2 (e : Z) : Q := 2 ^ e.

(** Nearest integer, ties to even. *)
Definition rne (q : Q) : Z :=
  let f := Qfloor q in
  match Qcompare (q - inject_Z f) (1 # 2) with
  | Lt => f
  | Gt => (f + 1)%Z
  | Eq => if Z.even f then f else (f + 1)%Z
  end.

(** [n] is a nearest integer of [q], and is even when [q] is half way. *)
Definition nearest_even (q : Q) (n : Z) : Prop :=
  inject_Z n - (1 # 2) <= q <= inject_Z n + (1 # 2)
  /\ (q == inject_Z n - (1 # 2) \/ q == inject_Z n + (1 # 2) -> Z.even n = true).

(** [floor (log2 q)] of a positive rational. *)
Definition ilog2 (q : Q) : Z :=
  let r := Qred q in
  let e0 := (Z.log2 (Qnum r) - Z.log2 (Zpos (Qden r)))%Z in
  if Qle_bool (pow2 e0) r then e0 else (e0 - 1)%Z.

(** Exponent of the unit in the last place of the format at [q]. *)
Definition cexp (q : Q) : Z := Z.max (ilog2 (Qabs q) - (prec - 1)) emin.

(** Rounding of a rational to the format, exponent unbounded above. *)
Definition rnd (q : Q) : Q :=
  Qred (inject_Z (rne (q / pow2 (cexp q))) * pow2 (cexp q)).

(** [q] is a finite binary64 number. *)
Definition binary64 (q : Q) : Prop := rnd q == q /\ Qabs q < pow2 emax.

Inductive double : Type :=
| NaN
| Inf (negative : bool)
| Fin (q : Q).

Definition Qneg (q : Q) : bool := negb (Qle_bool 0 q).
Definition Qzero (q : Q) : bool := Qeq_bool q 0.

(** The binary64 result of an operation whose exact result is [q]. *)
Definition round64 (q : Q) : double :=
  let r := rnd q in
  if Qle_bool (pow2 emax) (Qabs r) then Inf (Qneg r) else Fin r.

Definition fneg (a : double) : double :=
  match a with
  | NaN => NaN
  | Inf s => Inf (negb s)
  | Fin q => Fin (- q)
  end.

Definition fadd (a b : double) : double :=
  match a, b with
  | NaN, _ | _, NaN => NaN
  | Inf s, Inf t => if Bool.eqb s t then Inf s else NaN
  | Inf s, Fin _ => Inf s
  | Fin _, Inf t => Inf t
  | Fin p, Fin q => round64 (p + q)
  end.

Definition fsub (a b : double) : double := fadd a (fneg b).

Definition fmul (a b : double) : double :=
  match a, b with
  | NaN, _ | _, NaN => NaN
  | Inf s, Inf t => Inf (xorb s t)
  | Inf s, Fin q => if Qzero q then NaN else Inf (xorb s (Qneg q))
  | Fin p, Inf t => if Qzero p then NaN else Inf (xorb (Qneg p) t)
  | Fin p, Fin q => round64 (p * q)
  end.

(** A zero carries no sign here; a division by zero takes it as [+0]. *)
Definition fdiv (a b : double) : double :=
  match a, b with
  | NaN, _ | _, NaN => NaN
  | Inf _, Inf _ => NaN
  | Inf s, Fin q => Inf (xorb s (Qneg q))
  | Fin _, Inf _ => Fin 0
  | Fin p, Fin q =>
      if Qzero q then (if Qzero p then NaN else Inf (Qneg p))
      else round64 (p / q)
  end.

(** Conversion of an integer to [double]. *)
Definition of_Z (n : Z) : double := round64 (inject_Z n).

(** Truncation toward zero. *)
Definition Qtrunc (q : Q) : Z :=
  if Qle_bool 0 q then Qfloor q else Qceiling q.

(** [static_cast<int32_t>] of a [double]: the truncated value when
    [int32_t] can hold it, undefined behaviour otherwise. *)
Definition static_cast_int32 (a : double) : outcome Z :=
  match a with
  | Fin q =>
      let t := Qtrunc q in
      if ((int32_min <=? t) && (t <=? int32_max))%Z then Value t
      else Undefined
  | _ => Undefined
  end.

(** Comparison [a <= b] of two doubles; false when one is NaN. *)
Definition fle (a b : double) : Prop :=
  match a, b with
  | NaN, _ | _, NaN => False
  | Inf s, Inf t => s = true \/ t = false
  | Inf s, Fin _ => s = true
  | Fin _, Inf t => t = false
  | Fin p, Fin q => p <= q
  end.

(** Equality of values (NaN equals nothing). *)
Definition feq (a b : double) : Prop :=
  match a, b with
  | Inf s, Inf t => s = t
  | Fin p, Fin q => p == q
  | _, _ => False
  end.

End Binary64.

Import Binary64.

(** ** Collaborators of the header *)

(** Modelled from the spec: [osmium::geom::Coordinates] of
  <osmium/geom/coordinates.hpp>, "a coordinate-pair type with fields
  [x], [y] and a validity predicate". *)
Module Coordinates.

Record t : Type := make { x : double; y : double }.

Definition is_nan (a : double) : bool :=
  match a with NaN => true | _ => false end.

Definition valid (c : t) : bool := negb (is_nan (x c)) && negb (is_nan (y c)).

End Coordinates.

(** ** The tile functions *)

(** [detail::clamp<T>], at the type [int32_t] it is used at. *)
Definition clamp (value min max : Z) : Z :=
  if value <? min then min else if max <? value then max else value.

(** [1U << zoom] in [uint32_t] arithmetic, for a zoom of at most 31.  From
  [zoom = 32] on C++ leaves the shift undefined; this definition wraps to
  [0] there and says nothing of the code, and no theorem about the code
  uses it there. *)
Definition num_tiles_in_zoom (zoom : Z) : Z :=
  wrap_uint32 (Z.shiftl 1 zoom).

(** [Tile::max_zoom]. *)
Definition max_zoom : Z := 30.

(** The [Tile] struct: public fields, no invariant enforced. *)
Record Tile : Type := mkTile { x : Z; y : Z; z : Z }.

(** [Tile::valid()]. *)
Definition valid (t : Tile) : bool :=
  if z t >? max_zoom then false
  else
  let max := num_tiles_in_zoom (z t) in
  (x t <? max) && (y t <? max).

(** [operator==], [operator!=] and [operator<] on tiles. *)
Definition Tile_eq (lhs rhs : Tile) : bool :=
  (z lhs =? z rhs) && (x lhs =? x rhs) && (y lhs =? y rhs).

Definition Tile_ne (lhs rhs : Tile) : bool := negb (Tile_eq lhs rhs).

Definition Tile_lt (lhs rhs : Tile) : bool :=
  if z lhs <? z rhs then true
  else if z lhs >? z rhs then false
  else if x lhs <? x rhs then true
  else if x lhs >? x rhs then false
  else y lhs <? y rhs.

(** The constructor [Tile(zoom, tx, ty)]: the member initialisers, then the
  three assertions. *)
Definition Tile_xyz (zoom tx ty : Z) : outcome Tile :=
  let t := {| x := tx; y := ty; z := zoom |} in
  assert (zoom <=? max_zoom) ;;;
  assert (x t <? num_tiles_in_zoom zoom) ;;;
  assert (y t <? num_tiles_in_zoom zoom) ;;;
  Value t.

Section TileCode.

(** [detail::max_coordinate_epsg3857] of <osmium/geom/mercator_projection.hpp>,
    a finite [double] constant: its value. *)
Variable max_coordinate_epsg3857 : Q.

(** [osmium::Location] of <osmium/osm/location.hpp> with its [valid()],
    and [lonlat_to_mercator] of the projection header. *)
Variable Location : Type.
Variable location_valid : Location -> bool.
Variable lonlat_to_mercator : Location -> Coordinates.t.

Definition tile_extent_in_zoom (zoom : Z) : double :=
  fdiv (fmul (Fin max_coordinate_epsg3857) (of_Z 2))
       (of_Z (num_tiles_in_zoom zoom)).

Definition mercx_to_tilex (zoom : Z) (x : double) : outcome Z :=
  v <- static_cast_int32
         (fdiv (fadd x (Fin max_coordinate_epsg3857))
               (tile_extent_in_zoom zoom)) ;;
  Value (static_cast_uint32
           (clamp v 0 (to_int32 (wrap_uint32 (num_tiles_in_zoom zoom - 1))))).

Definition mercy_to_tiley (zoom : Z) (y : double) : outcome Z :=
  v <- static_cast_int32
         (fdiv (fsub (Fin max_coordinate_epsg3857) y)
               (tile_extent_in_zoom zoom)) ;;
  Value (static_cast_uint32
           (clamp v 0 (to_int32 (wrap_uint32 (num_tiles_in_zoom zoom - 1))))).

(** The constructor [Tile(zoom, coordinates)]. *)
Definition Tile_coordinates (zoom : Z) (coordinates : Coordinates.t)
  : outcome Tile :=
  assert (zoom <=? max_zoom) ;;;
  tx <- mercx_to_tilex zoom (Coordinates.x coordinates) ;;
  ty <- mercy_to_tiley zoom (Coordinates.y coordinates) ;;
  Value {| x := tx; y := ty; z := zoom |}.

(** The constructor [Tile(zoom, location)]. *)
Definition Tile_location (zoom : Z) (location : Location) : outcome Tile :=
  assert (zoom <=? max_zoom) ;;;
  assert (location_valid location) ;;;
  let coordinates := lonlat_to_mercator location in
  tx <- mercx_to_tilex zoom (Coordinates.x coordinates) ;;
  ty <- mercy_to_tiley zoom (Coordinates.y coordinates) ;;
  Value {| x := tx; y := ty; z := zoom |}.

End TileCode.

(** The value libosmium gives the constant: the [double] nearest to
  [20037508.34], which is [5378777688351703 * 2^-28]. *)
Definition max_coordinate_libosmium : Q := 5378777688351703 # 268435456.

(** A constant the theorems accept: a positive binary64 number with room
  above for the sums and below for the division by the tile count. *)
Definition binary64_constant (c : Q) : Prop :=
  exists m e : Z,
  0 < m < 2 ^ 53 /\ -1000 <= e <= 900 /\ (c == inject_Z m * pow2 e)%Q.

(** [x] lies within the projection bounds. *)
Definition in_bounds (c : Q) (a : double) : Prop :=
  fle (Fin (- c)) a /\ fle a (Fin c).

(** The tile extent as a rational, [2 * max / 2^zoom]. *)
Definition exact_extent (c : Q) (zoom : Z) : Q := (c * 2 / pow2 zoom)%Q.

(** The quotient [(x + max) / extent] as [mercx_to_tilex] computes it for a
    finite [x] of value [q]: the sum rounded, then the division rounded. *)
Definition quotient_x (c : Q) (zoom : Z) (q : Q) : Q :=
  rnd (rnd (q + c) / exact_extent c zoom).

(** The conversion of that quotient to [int32_t] is defined: the sum and
    the quotient are finite doubles and the truncated quotient is a value
    of [int32_t]. *)
Definition quotient_fits (c : Q) (zoom : Z) (q : Q) : Prop :=
  (Qabs (rnd (q + c)) < pow2 emax)%Q
  /\ (Qabs (quotient_x c zoom q) < pow2 emax)%Q
  /\ int32_min <= Qtrunc (quotient_x c zoom q) <= int32_max.

(** [max + 2 * max], computed in [double]: two extents beyond the upper
    projection bound of libosmium. *)
Definition beyond_max_libosmium : double :=
  fadd (Fin max_coordinate_libosmium)
       (fmul (of_Z 2) (Fin max_coordinate_libosmium)).

(** A sample of the collaborators, to instantiate them: locations on the
    equator at a whole number of degrees of longitude, at about 111319.49
    projected units a degree. *)
Definition equator_valid (lon : Z) : bool := (-180 <=? lon) && (lon <=? 180).

Definition equator_to_mercator (lon : Z) : Coordinates.t :=
  Coordinates.make (fmul (of_Z lon) (round64 (11131949 # 100))) (Fin 0).

(** * Properties *)

(** ** Powers of two *)

Section Pow2Facts.

#[local] Open Scope Q_scope.

Lemma pow2_pos (e : Z) : 0 < pow2 e.
Proof. apply Qpower_0_lt. reflexivity. Qed.

Lemma pow2_add (a b : Z) : pow2 (a + b) == pow2 a * pow2 b.
Proof. apply Qpower_plus. discriminate. Qed.

Lemma pow2_sub (a b : Z) : pow2 (a - b) == pow2 a / pow2 b.
Proof. apply Qpower_minus. discriminate. Qed.

Lemma pow2_le (a b : Z) : (a <= b)%Z -> pow2 a <= pow2 b.
Proof. intros H. apply Qpower_le_compat_l; [exact H | discriminate]. Qed.

Lemma pow2_lt (a b : Z) : (a < b)%Z -> pow2 a < pow2 b.
Proof. intros H. apply Qpower_lt_compat_l; [exact H | reflexivity]. Qed.

Lemma pow2_lt_inv (a b : Z) : pow2 a < pow2 b -> (a < b)%Z.
Proof.
  intros H. destruct (Z_lt_le_dec a b) as [Hlt | Hle]; [exact Hlt | ].
  apply pow2_le in Hle. exfalso. apply (Qlt_not_le _ _ H Hle).
Qed.

Lemma pow2_Z (e : Z) : (0 <= e)%Z -> pow2 e == inject_Z (2 ^ e).
Proof. intros H. symmetry. apply (Zpower_Qpower 2 e H). Qed.

End Pow2Facts.

(** ** Rounding to the nearest integer *)

Section RneFacts.

#[local] Open Scope Q_scope.

Lemma inject_Z_succ (n : Z) : inject_Z (n + 1) == inject_Z n + 1.
Proof. rewrite inject_Z_plus. reflexivity. Qed.

Lemma inject_Z_le (a b : Z) : (a <= b)%Z <-> inject_Z a <= inject_Z b.
Proof. unfold Qle, inject_Z. simpl. lia. Qed.

Lemma inject_Z_lt (a b : Z) : (a < b)%Z <-> inject_Z a < inject_Z b.
Proof. unfold Qlt, inject_Z. simpl. lia. Qed.

Lemma rne_spec (q : Q) : nearest_even q (rne q).
Proof.
  unfold nearest_even, rne.
  pose proof (Qfloor_le q) as Hlo. pose proof (Qlt_floor q) as Hhi.
  rewrite inject_Z_succ in Hhi.
  destruct (Qcompare_spec (q - inject_Z (Qfloor q)) (1 # 2)) as [He | Hl | Hg].
  - destruct (Z.even (Qfloor q)) eqn:Hev.
    + split; [lra | ]. intros _. exact Hev.
    + rewrite inject_Z_succ. split; [lra | ]. intros _.
      rewrite Z.even_add, Hev. reflexivity.
  - split; [lra | ]. intros [H | H]; lra.
  - rewrite inject_Z_succ. split; [lra | ]. intros [H | H]; lra.
Qed.

Lemma nearest_even_unique (q : Q) (m n : Z) :
  nearest_even q m -> nearest_even q n -> m = n.
Proof.
  intros [[Hm1 Hm2] Hm3] [[Hn1 Hn2] Hn3].
  assert (Hmn : (m <= n + 1)%Z).
  { apply <- inject_Z_le. rewrite inject_Z_succ. lra. }
  assert (Hnm : (n <= m + 1)%Z).
  { apply <- inject_Z_le. rewrite inject_Z_succ. lra. }
  destruct (Z.eq_dec m n) as [Heq | Hne]; [exact Heq | exfalso].
  assert (Hcase : (m = n + 1 \/ n = m + 1)%Z) by lia.
  destruct Hcase as [Hc | Hc]; subst.
  - rewrite inject_Z_succ in *.
    assert (E1 : Z.even (n + 1) = true) by (apply Hm3; left; lra).
    assert (E2 : Z.even n = true) by (apply Hn3; right; lra).
    rewrite Z.even_add, E2 in E1. discriminate.
  - rewrite inject_Z_succ in *.
    assert (E1 : Z.even (m + 1) = true) by (apply Hn3; left; lra).
    assert (E2 : Z.even m = true) by (apply Hm3; right; lra).
    rewrite Z.even_add, E2 in E1. discriminate.
Qed.

Lemma rne_unique (q : Q) (n : Z) : nearest_even q n -> rne q = n.
Proof. intros H. apply (nearest_even_unique q); [apply rne_spec | exact H]. Qed.

Lemma rne_comp (p q : Q) : p == q -> rne p = rne q.
Proof.
  intros H. apply rne_unique.
  destruct (rne_spec q) as [Hb Ht].
  split; [lra | ]. intros [K | K]; apply Ht; [left | right]; lra.
Qed.

Lemma rne_Z (n : Z) : rne (inject_Z n) = n.
Proof.
  apply rne_unique. split; [lra | ]. intros [K | K]; lra.
Qed.

Lemma rne_opp (q : Q) : rne (- q) = (- rne q)%Z.
Proof.
  apply rne_unique. destruct (rne_spec q) as [Hb Ht].
  unfold nearest_even. rewrite inject_Z_opp. split; [lra | ].
  rewrite Z.even_opp. intros [K | K]; apply Ht; [right | left]; lra.
Qed.

Lemma rne_mono (p q : Q) : p <= q -> (rne p <= rne q)%Z.
Proof.
  intros Hpq.
  destruct (rne_spec p) as [[Hp1 Hp2] Hp3].
  destruct (rne_spec q) as [[Hq1 Hq2] Hq3].
  destruct (Z_le_gt_dec (rne p) (rne q)) as [Hle | Hgt]; [exact Hle | exfalso].
  assert (Hstep : inject_Z (rne q) + 1 <= inject_Z (rne p)).
  { rewrite <- inject_Z_succ. apply -> inject_Z_le. lia. }
  assert (E : inject_Z (rne p) == inject_Z (rne q) + 1) by lra.
  assert (EZ : rne p = (rne q + 1)%Z).
  { apply inject_Z_injective. rewrite inject_Z_succ. exact E. }
  assert (E1 : Z.even (rne p) = true) by (apply Hp3; left; lra).
  assert (E2 : Z.even (rne q) = true) by (apply Hq3; right; lra).
  rewrite EZ, Z.even_add, E2 in E1. discriminate.
Qed.

End RneFacts.

(** ** The binary logarithm *)

Section Ilog2Facts.

#[local] Open Scope Q_scope.

Lemma Z_log2_bounds (n : Z) :
  (0 < n)%Z -> pow2 (Z.log2 n) <= inject_Z n < pow2 (Z.log2 n + 1).
Proof.
  intros Hn. pose proof (Z.log2_nonneg n) as H0.
  destruct (Z.log2_spec n Hn) as [Hlo Hhi].
  rewrite !pow2_Z by lia. split.
  - apply -> inject_Z_le. exact Hlo.
  - apply -> inject_Z_lt. exact Hhi.
Qed.

Lemma ilog2_spec (q : Q) :
  0 < q -> pow2 (ilog2 q) <= q < pow2 (ilog2 q + 1).
Proof.
  intros Hq. unfold ilog2.
  pose proof (Qred_correct q) as Hr.
  destruct (Qred q) as [n d] eqn:Hred. simpl Qnum. simpl Qden.
  assert (Hn : (0 < n)%Z).
  { rewrite <- Hr in Hq. unfold Qlt in Hq. simpl in Hq. lia. }
  destruct (Z_log2_bounds n Hn) as [Hn1 Hn2].
  destruct (Z_log2_bounds (Zpos d) (eq_refl _)) as [Hd1 Hd2].
  set (ln := Z.log2 n) in *. set (ld := Z.log2 (Zpos d)) in *.
  assert (Hrd : q * inject_Z (Zpos d) == inject_Z n).
  { rewrite <- Hr, (Qmake_Qdiv n d). field. discriminate. }
  assert (Hd0 : 0 < inject_Z (Zpos d)) by reflexivity.
  assert (Hup : q < pow2 (ln - ld + 1)).
  { pose proof (pow2_pos (ln - ld + 1)) as HA.
    pose proof (pow2_pos ld) as HP.
    assert (E : pow2 (ln - ld + 1) * pow2 ld == pow2 (ln + 1)).
    { rewrite <- pow2_add. replace (ln - ld + 1 + ld)%Z with (ln + 1)%Z by lia.
      reflexivity. }
    nra. }
  assert (Hdn : pow2 (ln - ld - 1) <= q).
  { pose proof (pow2_pos (ln - ld - 1)) as HB.
    assert (E : pow2 (ln - ld - 1) * pow2 (ld + 1) == pow2 ln).
    { rewrite <- pow2_add. replace (ln - ld - 1 + (ld + 1))%Z with ln by lia.
      reflexivity. }
    nra. }
  destruct (Qle_bool (pow2 (ln - ld)) (n # d)) eqn:Hb.
  - apply Qle_bool_iff in Hb. rewrite Hr in Hb. split; assumption.
  - replace (ln - ld - 1 + 1)%Z with (ln - ld)%Z by lia. split; [exact Hdn | ].
    apply Qnot_le_lt. intros Hc. rewrite <- Hr in Hc.
    apply Qle_bool_iff in Hc. rewrite Hc in Hb. discriminate.
Qed.

Lemma ilog2_unique (q : Q) (a : Z) :
  0 < q -> pow2 a <= q < pow2 (a + 1) -> ilog2 q = a.
Proof.
  intros Hq [Ha1 Ha2]. destruct (ilog2_spec q Hq) as [Hs1 Hs2].
  assert (H1 : (ilog2 q < a + 1)%Z).
  { apply pow2_lt_inv. eapply Qle_lt_trans; eassumption. }
  assert (H2 : (a < ilog2 q + 1)%Z).
  { apply pow2_lt_inv. eapply Qle_lt_trans; eassumption. }
  lia.
Qed.

Lemma ilog2_comp (p q : Q) : p == q -> ilog2 p = ilog2 q.
Proof.
  intros H. unfold ilog2. rewrite (Qred_complete p q H). reflexivity.
Qed.

Lemma ilog2_mono (p q : Q) : 0 < p -> p <= q -> (ilog2 p <= ilog2 q)%Z.
Proof.
  intros Hp Hpq. assert (Hq : 0 < q) by lra.
  destruct (ilog2_spec p Hp) as [Hp1 _]. destruct (ilog2_spec q Hq) as [_ Hq2].
  assert (H : (ilog2 p < ilog2 q + 1)%Z).
  { apply pow2_lt_inv. lra. }
  lia.
Qed.

End Ilog2Facts.

(** ** Rounding to binary64 *)

Section RndFacts.

#[local] Open Scope Q_scope.

Lemma rnd_eq (q : Q) :
  rnd q == inject_Z (rne (q / pow2 (cexp q))) * pow2 (cexp q).
Proof. unfold rnd. apply Qred_correct. Qed.

Lemma cexp_comp (p q : Q) : p == q -> cexp p = cexp q.
Proof.
  intros H. unfold cexp. rewrite (ilog2_comp (Qabs p) (Qabs q)); [reflexivity | ].
  rewrite H. reflexivity.
Qed.

Lemma rnd_comp (p q : Q) : p == q -> rnd p == rnd q.
Proof.
  intros H. rewrite !rnd_eq, (cexp_comp p q H).
  rewrite (rne_comp (p / pow2 (cexp q)) (q / pow2 (cexp q))); [reflexivity | ].
  rewrite H. reflexivity.
Qed.

Lemma cexp_opp (q : Q) : cexp (- q) = cexp q.
Proof.
  unfold cexp. rewrite (ilog2_comp (Qabs (- q)) (Qabs q)); [reflexivity | ].
  apply Qabs_opp.
Qed.

Lemma rnd_opp (q : Q) : rnd (- q) == - rnd q.
Proof.
  rewrite !rnd_eq, cexp_opp.
  rewrite (rne_comp (- q / pow2 (cexp q)) (- (q / pow2 (cexp q)))).
  - rewrite rne_opp, inject_Z_opp. ring.
  - field. apply Qnot_eq_sym, Qlt_not_eq, pow2_pos.
Qed.

Lemma rnd_0 : rnd 0 == 0.
Proof. reflexivity. Qed.

(** A value below (above) a multiple of its unit in the last place rounds
    below (above) it. *)
Lemma rnd_le_multiple (q : Q) (k : Z) :
  q <= inject_Z k * pow2 (cexp q) -> rnd q <= inject_Z k * pow2 (cexp q).
Proof.
  intros H. rewrite rnd_eq. pose proof (pow2_pos (cexp q)) as Hc.
  apply Qmult_le_compat_r; [ | lra].
  apply -> inject_Z_le. rewrite <- (rne_Z k). apply rne_mono.
  apply Qle_shift_div_r; assumption.
Qed.

Lemma rnd_ge_multiple (q : Q) (k : Z) :
  inject_Z k * pow2 (cexp q) <= q -> inject_Z k * pow2 (cexp q) <= rnd q.
Proof.
  intros H. rewrite rnd_eq. pose proof (pow2_pos (cexp q)) as Hc.
  apply Qmult_le_compat_r; [ | lra].
  apply -> inject_Z_le. rewrite <- (rne_Z k) at 1. apply rne_mono.
  apply Qle_shift_div_l; assumption.
Qed.

Lemma rnd_nonneg (q : Q) : 0 <= q -> 0 <= rnd q.
Proof.
  intros H. pose proof (rnd_ge_multiple q 0) as K.
  assert (E : inject_Z 0 * pow2 (cexp q) == 0) by ring.
  rewrite E in K. apply K. exact H.
Qed.

Lemma rnd_nonpos (q : Q) : q <= 0 -> rnd q <= 0.
Proof.
  intros H. pose proof (rnd_le_multiple q 0) as K.
  assert (E : inject_Z 0 * pow2 (cexp q) == 0) by ring.
  rewrite E in K. apply K. exact H.
Qed.

Lemma cexp_pos (q : Q) : 0 < q -> cexp q = Z.max (ilog2 q - 52) emin.
Proof.
  intros H. unfold cexp. rewrite (ilog2_comp (Qabs q) q); [reflexivity | ].
  apply Qabs_pos. lra.
Qed.

Lemma pow2_multiple (a c : Z) :
  (c <= a)%Z -> pow2 a == inject_Z (2 ^ (a - c)) * pow2 c.
Proof.
  intros H. rewrite <- pow2_Z by lia. rewrite <- pow2_add.
  replace (a - c + c)%Z with a by lia. reflexivity.
Qed.

Lemma rnd_mono_pos (p q : Q) : 0 < p -> p <= q -> rnd p <= rnd q.
Proof.
  intros Hp Hpq. assert (Hq : 0 < q) by lra.
  pose proof (ilog2_mono p q Hp Hpq) as Hlog.
  pose proof (cexp_pos p Hp) as Cp. pose proof (cexp_pos q Hq) as Cq.
  destruct (Z.eq_dec (cexp p) (cexp q)) as [Heq | Hne].
  - rewrite !rnd_eq, Heq. pose proof (pow2_pos (cexp q)) as Hc.
    apply Qmult_le_compat_r; [ | lra].
    apply -> inject_Z_le. apply rne_mono.
    apply Qmult_le_compat_r; [exact Hpq | ].
    apply Qlt_le_weak, Qinv_lt_0_compat, Hc.
  - unfold emin in *.
    assert (Hcq : cexp q = (ilog2 q - 52)%Z) by lia.
    assert (Hlt : (ilog2 p + 1 <= ilog2 q)%Z) by lia.
    destruct (ilog2_spec p Hp) as [_ Hp2]. destruct (ilog2_spec q Hq) as [Hq1 _].
    apply Qle_trans with (pow2 (ilog2 q)).
    + rewrite (pow2_multiple (ilog2 q) (cexp p)) by lia.
      apply rnd_le_multiple.
      rewrite <- (pow2_multiple (ilog2 q) (cexp p)) by lia.
      pose proof (pow2_le _ _ Hlt). lra.
    + rewrite (pow2_multiple (ilog2 q) (cexp q)) by lia.
      apply rnd_ge_multiple.
      rewrite <- (pow2_multiple (ilog2 q) (cexp q)) by lia.
      exact Hq1.
Qed.

(** Rounding is monotone. *)
Lemma rnd_mono (p q : Q) : p <= q -> rnd p <= rnd q.
Proof.
  intros Hpq. destruct (Qlt_le_dec 0 p) as [Hp | Hp].
  - apply rnd_mono_pos; assumption.
  - destruct (Qlt_le_dec q 0) as [Hq | Hq].
    + assert (H : rnd (- q) <= rnd (- p)) by (apply rnd_mono_pos; lra).
      rewrite !rnd_opp in H. lra.
    + pose proof (rnd_nonpos p Hp). pose proof (rnd_nonneg q Hq). lra.
Qed.

Lemma rnd_exact_pos (q : Q) (m e : Z) :
  (0 < m < 2 ^ 53)%Z -> (emin <= e)%Z -> q == inject_Z m * pow2 e ->
  rnd q == q.
Proof.
  intros Hm He Hq. pose proof (pow2_pos e) as Hpe.
  assert (Hm1 : 1 <= inject_Z m).
  { change 1 with (inject_Z 1). apply -> inject_Z_le. lia. }
  assert (Hm2 : inject_Z m < pow2 53).
  { rewrite pow2_Z by lia. apply -> inject_Z_lt. lia. }
  assert (Hq0 : 0 < q) by nra.
  assert (Hlt : q < pow2 (53 + e)).
  { rewrite pow2_add. pose proof (pow2_pos 53). nra. }
  destruct (ilog2_spec q Hq0) as [Hs _].
  assert (Hlog : (ilog2 q < 53 + e)%Z).
  { apply pow2_lt_inv. lra. }
  assert (Hc : (cexp q <= e)%Z) by (rewrite (cexp_pos q Hq0); lia).
  assert (E : q == inject_Z (m * 2 ^ (e - cexp q)) * pow2 (cexp q)).
  { eapply Qeq_trans; [exact Hq | ].
    rewrite inject_Z_mult, (pow2_multiple e (cexp q) Hc). ring. }
  apply Qle_antisym.
  - rewrite E at 2. apply rnd_le_multiple. rewrite <- E. apply Qle_refl.
  - rewrite E at 1. apply rnd_ge_multiple. rewrite <- E. apply Qle_refl.
Qed.

(** A number of at most 53 significant bits above the least exponent is
    its own rounding. *)
Lemma rnd_exact (q : Q) (m e : Z) :
  (Z.abs m < 2 ^ 53)%Z -> (emin <= e)%Z -> q == inject_Z m * pow2 e ->
  rnd q == q.
Proof.
  intros Hm He Hq. destruct (Z.lt_trichotomy m 0) as [Hneg | [Hz | Hpos]].
  - assert (H : rnd (- q) == - q).
    { apply (rnd_exact_pos (- q) (- m) e); [lia | exact He | ].
      rewrite Hq, inject_Z_opp. ring. }
    rewrite rnd_opp in H. lra.
  - subst m. assert (E : q == 0) by (rewrite Hq; ring).
    rewrite (rnd_comp q 0 E), E. apply rnd_0.
  - apply (rnd_exact_pos q m e); [lia | exact He | exact Hq].
Qed.

End RndFacts.

(** ** Operations on doubles *)

Section DoubleFacts.

#[local] Open Scope Q_scope.

Lemma rnd_comp_eq (p q : Q) : p == q -> rnd p = rnd q.
Proof.
  intros H. unfold rnd. apply Qred_complete.
  rewrite <- !rnd_eq. apply rnd_comp, H.
Qed.

Lemma round64_comp (p q : Q) : p == q -> round64 p = round64 q.
Proof. intros H. unfold round64. rewrite (rnd_comp_eq p q H). reflexivity. Qed.

Lemma round64_fin (q : Q) :
  Qabs (rnd q) < pow2 emax -> round64 q = Fin (rnd q).
Proof.
  intros H. unfold round64.
  destruct (Qle_bool (pow2 emax) (Qabs (rnd q))) eqn:Hb; [ | reflexivity].
  apply Qle_bool_iff in Hb. lra.
Qed.

Lemma dyadic_binary64 (q : Q) (m e : Z) :
  (Z.abs m < 2 ^ 53)%Z -> (emin <= e <= 970)%Z -> q == inject_Z m * pow2 e ->
  binary64 q.
Proof.
  intros Hm He Hq. split; [apply (rnd_exact q m e); [exact Hm | lia | exact Hq] | ].
  rewrite Hq, Qabs_Qmult, (Qabs_pos (pow2 e)) by apply Qlt_le_weak, pow2_pos.
  assert (Ha : Qabs (inject_Z m) < pow2 53).
  { apply Qabs_case; intros _; rewrite <- ?inject_Z_opp, pow2_Z by lia;
      apply -> inject_Z_lt; lia. }
  assert (Hp : pow2 e <= pow2 970) by (apply pow2_le; lia).
  assert (Hs : pow2 53 * pow2 970 < pow2 emax) by reflexivity.
  pose proof (pow2_pos e). pose proof (pow2_pos 53).
  pose proof (Qabs_nonneg (inject_Z m)). nra.
Qed.

Lemma binary64_0 : binary64 0.
Proof. split; reflexivity. Qed.

Lemma binary64_pow2 (k : Z) : (0 <= k <= 64)%Z -> binary64 (pow2 k).
Proof.
  intros Hk. apply (dyadic_binary64 _ 1 k); [reflexivity | unfold emin; lia | ring].
Qed.

(** An exact result between two binary64 numbers rounds to a finite
    double between them. *)
Lemma round64_between (lo hi q : Q) :
  binary64 lo -> binary64 hi -> lo <= q <= hi ->
  round64 q = Fin (rnd q) /\ lo <= rnd q <= hi.
Proof.
  intros [Rlo Blo] [Rhi Bhi] [H1 H2].
  assert (Hb : lo <= rnd q <= hi).
  { split; [rewrite <- Rlo | rewrite <- Rhi]; apply rnd_mono; assumption. }
  split; [ | exact Hb]. apply round64_fin.
  apply Qabs_Qlt_condition in Blo. apply Qabs_Qlt_condition in Bhi.
  apply Qabs_Qlt_condition. lra.
Qed.

Lemma round64_exact (q : Q) : binary64 q -> round64 q = Fin (rnd q) /\ rnd q == q.
Proof.
  intros H. destruct (round64_between q q q H H) as [E _]; [lra | ].
  split; [exact E | apply H].
Qed.

Lemma Qzero_false (q : Q) : ~ q == 0 -> Qzero q = false.
Proof.
  intros H. unfold Qzero. destruct (Qeq_bool q 0) eqn:E; [ | reflexivity].
  apply Qeq_bool_iff in E. contradiction.
Qed.

Lemma Qtrunc_mono (p q : Q) : p <= q -> (Qtrunc p <= Qtrunc q)%Z.
Proof.
  intros H. unfold Qtrunc.
  destruct (Qle_bool 0 p) eqn:Hp; destruct (Qle_bool 0 q) eqn:Hq.
  - apply Qfloor_resp_le, H.
  - apply Qle_bool_iff in Hp.
    assert (K : ~ 0 <= q) by (intros K; apply Qle_bool_iff in K; congruence).
    exfalso. apply K. lra.
  - assert (K : ~ 0 <= p) by (intros K; apply Qle_bool_iff in K; congruence).
    apply Qle_bool_iff in Hq.
    assert (H1 : (Qceiling p <= Qceiling 0)%Z) by (apply Qceiling_resp_le; lra).
    assert (H2 : (Qfloor 0 <= Qfloor q)%Z) by (apply Qfloor_resp_le; exact Hq).
    change (Qceiling 0) with 0%Z in H1. change (Qfloor 0) with 0%Z in H2. lia.
  - apply Qceiling_resp_le, H.
Qed.

Lemma Qtrunc_Z (n : Z) : Qtrunc (inject_Z n) = n.
Proof.
  unfold Qtrunc. destruct (Qle_bool 0 (inject_Z n)).
  - apply Qfloor_Z.
  - apply Qceiling_Z.
Qed.

Lemma Qtrunc_comp (p q : Q) : p == q -> Qtrunc p = Qtrunc q.
Proof.
  intros H. apply Z.le_antisymm; apply Qtrunc_mono; lra.
Qed.

End DoubleFacts.

(** ** Integer helpers of the tile functions *)

Section IntegerFacts.

Ltac pow_consts :=
  change (2 ^ 30) with 1073741824 in *;
  change (2 ^ 31) with 2147483648 in *;
  change (2 ^ 32) with 4294967296 in *.

Lemma pow2_zoom_bounds (zoom : Z) :
  0 <= zoom <= 30 -> 1 <= 2 ^ zoom <= 2 ^ 30.
Proof.
  intros H. split.
  - pose proof (Z.pow_pos_nonneg 2 zoom). lia.
  - apply Z.pow_le_mono_r; lia.
Qed.

Lemma num_tiles_in_zoom_pow (zoom : Z) :
  0 <= zoom <= 30 -> num_tiles_in_zoom zoom = 2 ^ zoom.
Proof.
  intros H. unfold num_tiles_in_zoom, wrap_uint32, uint32_modulus.
  rewrite Z.shiftl_1_l. apply Z.mod_small.
  pose proof (pow2_zoom_bounds zoom H). lia.
Qed.

(** The upper clamp bound [num_tiles_in_zoom(zoom) - 1] as the [int32_t]
    the call converts it to. *)
Lemma max_tile_int32 (zoom : Z) :
  0 <= zoom <= 30 ->
  to_int32 (wrap_uint32 (num_tiles_in_zoom zoom - 1)) = 2 ^ zoom - 1.
Proof.
  intros H. rewrite (num_tiles_in_zoom_pow zoom H).
  pose proof (pow2_zoom_bounds zoom H) as Hb.
  unfold to_int32, wrap_uint32, uint32_modulus, int32_max.
  rewrite Z.mod_mod by lia. rewrite Z.mod_small by lia.
  pow_consts. destruct (Z.leb_spec (2 ^ zoom - 1) (2147483648 - 1)); [reflexivity | lia].
Qed.

Lemma clamp_bounds (v lo hi : Z) : lo <= hi -> lo <= clamp v lo hi <= hi.
Proof.
  intros H. unfold clamp.
  destruct (v <? lo) eqn:E1; [lia | ]. destruct (hi <? v) eqn:E2; lia.
Qed.

Lemma clamp_mono (v w lo hi : Z) :
  lo <= hi -> v <= w -> clamp v lo hi <= clamp w lo hi.
Proof.
  intros H Hvw. unfold clamp.
  destruct (v <? lo) eqn:E1; destruct (w <? lo) eqn:E2;
    destruct (hi <? v) eqn:E3; destruct (hi <? w) eqn:E4; lia.
Qed.

Lemma clamp_above (v lo hi : Z) : lo <= hi -> hi <= v -> clamp v lo hi = hi.
Proof.
  intros H Hv. unfold clamp.
  destruct (v <? lo) eqn:E1; [lia | ]. destruct (hi <? v) eqn:E2; lia.
Qed.

Lemma clamp_below (v lo hi : Z) : lo <= hi -> v <= lo -> clamp v lo hi = lo.
Proof.
  intros H Hv. unfold clamp.
  destruct (v <? lo) eqn:E1; [lia | ]. destruct (hi <? v) eqn:E2; lia.
Qed.

(** The tile index computed from a truncated quotient [v]. *)
Lemma tile_index_clamped (zoom v : Z) :
  0 <= zoom <= 30 ->
  static_cast_uint32
    (clamp v 0 (to_int32 (wrap_uint32 (num_tiles_in_zoom zoom - 1))))
  = clamp v 0 (2 ^ zoom - 1).
Proof.
  intros H. rewrite (max_tile_int32 zoom H).
  pose proof (pow2_zoom_bounds zoom H) as Hb.
  pose proof (clamp_bounds v 0 (2 ^ zoom - 1)) as Hc.
  unfold static_cast_uint32, wrap_uint32, uint32_modulus.
  apply Z.mod_small. lia.
Qed.

End IntegerFacts.

(** ** The tile functions *)

Section TileFacts.

#[local] Open Scope Q_scope.

Variable c : Q.
Hypothesis Hc : binary64_constant c.

Variable Location : Type.
Variable location_valid : Location -> bool.
Variable lonlat_to_mercator : Location -> Coordinates.t.

Lemma of_Z_2 : of_Z 2 = Fin 2.
Proof. vm_compute. reflexivity. Qed.

Lemma binary64_opp (q : Q) : binary64 q -> binary64 (- q).
Proof.
  intros [H1 H2]. split.
  - rewrite rnd_opp, H1. reflexivity.
  - rewrite Qabs_opp. exact H2.
Qed.

Lemma constant_pos : 0 < c.
Proof.
  destruct Hc as (m & e & Hm & He & Hq). rewrite Hq.
  apply Qmult_lt_0_compat; [ | apply pow2_pos].
  change 0 with (inject_Z 0). apply -> inject_Z_lt. lia.
Qed.

(** The constant times a moderate power of two is a binary64 number. *)
Lemma binary64_scaled (j : Z) : (-40 <= j <= 40)%Z -> binary64 (c * pow2 j).
Proof.
  intros Hj. destruct Hc as (m & e & Hm & He & Hq).
  apply (dyadic_binary64 _ m (e + j)); [lia | unfold emin; lia | ].
  rewrite Hq, pow2_add. ring.
Qed.

Lemma exact_extent_eq (zoom : Z) : exact_extent c zoom == c * pow2 (1 - zoom).
Proof.
  unfold exact_extent. rewrite pow2_sub. change (pow2 1) with 2.
  field. apply Qnot_eq_sym, Qlt_not_eq, pow2_pos.
Qed.

Lemma exact_extent_pos (zoom : Z) : 0 < exact_extent c zoom.
Proof.
  rewrite exact_extent_eq.
  apply Qmult_lt_0_compat; [apply constant_pos | apply pow2_pos].
Qed.

Lemma of_Z_num_tiles (zoom : Z) :
  (0 <= zoom <= 30)%Z ->
  exists n : Q, of_Z (num_tiles_in_zoom zoom) = Fin n /\ n == pow2 zoom.
Proof.
  intros Hz. rewrite (num_tiles_in_zoom_pow zoom Hz). unfold of_Z.
  rewrite (round64_comp _ (pow2 zoom)) by (symmetry; apply pow2_Z; lia).
  destruct (round64_exact (pow2 zoom)) as [E1 E2]; [apply binary64_pow2; lia | ].
  exists (rnd (pow2 zoom)). split; assumption.
Qed.

Lemma tile_extent_fin (zoom : Z) :
  (0 <= zoom <= 30)%Z ->
  exists E : Q, tile_extent_in_zoom c zoom = Fin E /\ E == exact_extent c zoom.
Proof.
  intros Hz. unfold tile_extent_in_zoom. rewrite of_Z_2.
  destruct (of_Z_num_tiles zoom Hz) as (n & En & Hn). rewrite En.
  assert (B2 : binary64 (c * 2)).
  { change 2 with (pow2 1). apply binary64_scaled. lia. }
  destruct (round64_exact (c * 2) B2) as [E1 E2].
  unfold fmul. rewrite E1. unfold fdiv.
  assert (Hn0 : ~ n == 0).
  { rewrite Hn. apply Qnot_eq_sym, Qlt_not_eq, pow2_pos. }
  rewrite (Qzero_false n Hn0).
  assert (Eq : rnd (c * 2) / n == exact_extent c zoom).
  { unfold exact_extent. rewrite E2, Hn. reflexivity. }
  rewrite (round64_comp _ _ Eq).
  assert (BE : binary64 (exact_extent c zoom)).
  { destruct (binary64_scaled (1 - zoom)) as [R1 R2]; [lia | ].
    pose proof (exact_extent_eq zoom) as EE. split.
    - rewrite (rnd_comp _ _ EE), EE. exact R1.
    - rewrite EE. exact R2. }
  destruct (round64_exact _ BE) as [E3 E4].
  exists (rnd (exact_extent c zoom)). split; assumption.
Qed.

(** Dividing a finite double by the tile extent. *)
Lemma fdiv_extent (zoom : Z) (s : Q) :
  (0 <= zoom <= 30)%Z ->
  fdiv (Fin s) (tile_extent_in_zoom c zoom) = round64 (s / exact_extent c zoom).
Proof.
  intros Hz. destruct (tile_extent_fin zoom Hz) as (E & HE & EE). rewrite HE.
  pose proof (exact_extent_pos zoom) as Hpos.
  unfold fdiv. rewrite Qzero_false by (rewrite EE; lra).
  apply round64_comp. rewrite EE. reflexivity.
Qed.

Lemma fdiv_inf_extent (zoom : Z) (s : bool) :
  (0 <= zoom <= 30)%Z ->
  exists s', fdiv (Inf s) (tile_extent_in_zoom c zoom) = Inf s'.
Proof.
  intros Hz. destruct (tile_extent_fin zoom Hz) as (E & HE & _). rewrite HE.
  simpl. eexists. reflexivity.
Qed.

Lemma round64_cases (q : Q) :
  round64 q = Fin (rnd q) \/ exists s, round64 q = Inf s.
Proof.
  unfold round64. destruct (Qle_bool (pow2 emax) (Qabs (rnd q))).
  - right. eexists. reflexivity.
  - left. reflexivity.
Qed.

Lemma quotient_x_mono (zoom : Z) (p q : Q) :
  p <= q -> quotient_x c zoom p <= quotient_x c zoom q.
Proof.
  intros H. unfold quotient_x. apply rnd_mono.
  apply Qmult_le_compat_r.
  - apply rnd_mono. lra.
  - apply Qlt_le_weak, Qinv_lt_0_compat, exact_extent_pos.
Qed.

Lemma quotient_x_max (zoom : Z) :
  (0 <= zoom <= 30)%Z -> quotient_x c zoom c == pow2 zoom.
Proof.
  intros Hz. unfold quotient_x.
  assert (B2 : binary64 (c * pow2 1)) by (apply binary64_scaled; lia).
  assert (E : c + c == c * pow2 1) by (change (pow2 1) with 2; ring).
  rewrite (rnd_comp_eq _ _ E).
  assert (Eq : rnd (c * pow2 1) / exact_extent c zoom == pow2 zoom).
  { destruct B2 as [R _]. rewrite R. unfold exact_extent.
    change (pow2 1) with 2. field.
    split; apply Qnot_eq_sym, Qlt_not_eq;
      first [apply pow2_pos | apply constant_pos]. }
  rewrite (rnd_comp_eq _ _ Eq). apply binary64_pow2. lia.
Qed.

Lemma quotient_x_min (zoom : Z) : quotient_x c zoom (- c) == 0.
Proof.
  unfold quotient_x.
  assert (E : - c + c == 0) by ring.
  assert (Eq : rnd (- c + c) / exact_extent c zoom == 0).
  { rewrite (rnd_comp_eq _ _ E). reflexivity. }
  rewrite (rnd_comp_eq _ _ Eq). reflexivity.
Qed.

Lemma binary64_comp (p q : Q) : p == q -> binary64 p -> binary64 q.
Proof.
  intros H [R B]. split.
  - rewrite <- (rnd_comp _ _ H), <- H. exact R.
  - rewrite <- H. exact B.
Qed.

Lemma binary64_int32 (a : Z) :
  (int32_min <= a <= int32_max + 1)%Z -> binary64 (inject_Z a).
Proof.
  unfold int32_min, int32_max. intros H.
  apply (dyadic_binary64 _ a 0); [lia | unfold emin; lia | ].
  change (pow2 0) with 1. ring.
Qed.

Lemma scaled_over_extent (zoom j : Z) :
  (0 <= j - 1 + zoom)%Z ->
  c * pow2 j / exact_extent c zoom == inject_Z (2 ^ (j - 1 + zoom)).
Proof.
  intros H. rewrite <- pow2_Z by exact H.
  replace (j - 1 + zoom)%Z with (j - (1 - zoom))%Z by lia.
  rewrite pow2_sub, exact_extent_eq. field.
  split; apply Qnot_eq_sym, Qlt_not_eq;
    first [apply pow2_pos | apply constant_pos].
Qed.

Lemma bind_Value (A B : Type) (a : A) (k : A -> outcome B) :
  bind (Value a) k = k a.
Proof. reflexivity. Qed.

Lemma bind_Undefined (A B : Type) (k : A -> outcome B) :
  bind Undefined k = Undefined.
Proof. reflexivity. Qed.

Lemma static_cast_int32_Fin (q : Q) :
  static_cast_int32 (Fin q)
  = if ((int32_min <=? Qtrunc q) && (Qtrunc q <=? int32_max))%Z
    then Value (Qtrunc q) else Undefined.
Proof. reflexivity. Qed.

Lemma static_cast_int32_Inf (s : bool) : static_cast_int32 (Inf s) = Undefined.
Proof. reflexivity. Qed.

Lemma fadd_Fin (p q : Q) : fadd (Fin p) (Fin q) = round64 (p + q).
Proof. reflexivity. Qed.

Lemma fadd_Inf_Fin (s : bool) (q : Q) : fadd (Inf s) (Fin q) = Inf s.
Proof. reflexivity. Qed.

Lemma fdiv_NaN (b : double) : fdiv NaN b = NaN.
Proof. reflexivity. Qed.

Lemma fdiv_Inf_Fin (s : bool) (q : Q) : fdiv (Inf s) (Fin q) = Inf (xorb s (Qneg q)).
Proof. reflexivity. Qed.

Lemma mercx_unfold (zoom : Z) (x : double) :
  mercx_to_tilex c zoom x
  = bind (static_cast_int32
            (fdiv (fadd x (Fin c)) (tile_extent_in_zoom c zoom)))
         (fun v =>
            Value (static_cast_uint32
                     (clamp v 0
                        (to_int32 (wrap_uint32 (num_tiles_in_zoom zoom - 1)))))).
Proof. reflexivity. Qed.

(** The two roundings of the quotient when the sum lies between two
    binary64 numbers whose quotients are the integers [a] and [b]. *)
Lemma quotient_between (zoom : Z) (q lo hi : Q) (a b : Z) :
  (0 <= zoom <= 30)%Z ->
  binary64 lo -> binary64 hi ->
  lo / exact_extent c zoom == inject_Z a ->
  hi / exact_extent c zoom == inject_Z b ->
  (int32_min <= a)%Z -> (b <= int32_max + 1)%Z ->
  lo <= q + c <= hi ->
  fdiv (fadd (Fin q) (Fin c)) (tile_extent_in_zoom c zoom)
  = Fin (quotient_x c zoom q)
  /\ (a <= Qtrunc (quotient_x c zoom q) <= b)%Z.
Proof.
  intros Hz Blo Bhi Ea Eb Ha Hb Hq.
  pose proof (exact_extent_pos zoom) as Hpos.
  rewrite fadd_Fin.
  destruct (round64_between lo hi (q + c) Blo Bhi Hq) as [E1 [L1 U1]].
  rewrite E1, (fdiv_extent zoom _ Hz).
  assert (Hab : (a <= b)%Z).
  { apply <- inject_Z_le. rewrite <- Ea, <- Eb.
    apply Qmult_le_compat_r; [lra | ].
    apply Qlt_le_weak, Qinv_lt_0_compat, Hpos. }
  assert (Ba : binary64 (inject_Z a)) by (apply binary64_int32; lia).
  assert (Bb : binary64 (inject_Z b)) by (apply binary64_int32; lia).
  assert (Hbetween : inject_Z a <= rnd (q + c) / exact_extent c zoom <= inject_Z b).
  { rewrite <- Ea, <- Eb. split; apply Qmult_le_compat_r; try assumption;
      apply Qlt_le_weak, Qinv_lt_0_compat, Hpos. }
  destruct (round64_between _ _ _ Ba Bb Hbetween) as [E2 [L2 U2]].
  split; [exact E2 | ].
  pose proof (Qtrunc_mono _ _ L2) as T1. pose proof (Qtrunc_mono _ _ U2) as T2.
  rewrite Qtrunc_Z in T1, T2. split; [exact T1 | exact T2].
Qed.

(** What [mercx_to_tilex] returns on a finite [x] once the quotient is a
    finite double within the range of [int32_t]. *)
Lemma mercx_of_quotient (zoom : Z) (q : Q) :
  (0 <= zoom <= 30)%Z ->
  fdiv (fadd (Fin q) (Fin c)) (tile_extent_in_zoom c zoom)
  = Fin (quotient_x c zoom q) ->
  (int32_min <= Qtrunc (quotient_x c zoom q) <= int32_max)%Z ->
  mercx_to_tilex c zoom (Fin q)
  = Value (clamp (Qtrunc (quotient_x c zoom q)) 0 (2 ^ zoom - 1)).
Proof.
  intros Hz E [H1 H2]. rewrite mercx_unfold, E, static_cast_int32_Fin.
  apply Z.leb_le in H1. apply Z.leb_le in H2. rewrite H1, H2.
  change (true && true) with true. cbv iota.
  rewrite bind_Value, (tile_index_clamped zoom _ Hz). reflexivity.
Qed.

(** Conversely, a value returned by [mercx_to_tilex] is the clamped
    truncation of that quotient, and the argument was finite. *)
Lemma mercx_value_inv (zoom : Z) (x : double) (v : Z) :
  (0 <= zoom <= 30)%Z ->
  mercx_to_tilex c zoom x = Value v ->
  exists q : Q,
    x = Fin q /\ v = clamp (Qtrunc (quotient_x c zoom q)) 0 (2 ^ zoom - 1).
Proof.
  intros Hz H. rewrite mercx_unfold in H.
  destruct (tile_extent_fin zoom Hz) as (E & HE & EE).
  destruct x as [ | s | q].
  - rewrite fdiv_NaN, bind_Undefined in H. discriminate H.
  - rewrite HE, fadd_Inf_Fin, fdiv_Inf_Fin, static_cast_int32_Inf,
      bind_Undefined in H.
    discriminate H.
  - exists q. split; [reflexivity | ].
    rewrite fadd_Fin in H.
    destruct (round64_cases (q + c)) as [E1 | [s E1]]; rewrite E1 in H.
    + rewrite (fdiv_extent zoom _ Hz) in H.
      destruct (round64_cases (rnd (q + c) / exact_extent c zoom))
        as [E2 | [s E2]]; rewrite E2 in H.
      * rewrite static_cast_int32_Fin in H.
        match type of H with
        | context [if ?b then _ else _] => destruct b
        end.
        -- rewrite bind_Value, (tile_index_clamped zoom _ Hz) in H.
           injection H as H. symmetry. exact H.
        -- rewrite bind_Undefined in H. discriminate H.
      * rewrite static_cast_int32_Inf, bind_Undefined in H. discriminate H.
    + rewrite HE, fdiv_Inf_Fin, static_cast_int32_Inf, bind_Undefined in H.
      discriminate H.
Qed.

Lemma Qtrunc_pow2 (k : Z) : (0 <= k)%Z -> Qtrunc (pow2 k) = (2 ^ k)%Z.
Proof.
  intros H. rewrite (Qtrunc_comp _ _ (pow2_Z k H)). apply Qtrunc_Z.
Qed.

(** Within the projection bounds the conversion is defined. *)
Lemma mercx_in_bounds (zoom : Z) (q : Q) :
  (0 <= zoom <= 30)%Z -> - c <= q <= c ->
  mercx_to_tilex c zoom (Fin q)
  = Value (clamp (Qtrunc (quotient_x c zoom q)) 0 (2 ^ zoom - 1)).
Proof.
  intros Hz Hq. pose proof (pow2_zoom_bounds zoom Hz) as Hp.
  destruct (quotient_between zoom q 0 (c * pow2 1) 0 (2 ^ zoom)) as [E [L U]].
  - exact Hz.
  - apply binary64_0.
  - apply binary64_scaled. lia.
  - unfold Qdiv. ring.
  - rewrite (scaled_over_extent zoom 1) by lia.
    replace (1 - 1 + zoom)%Z with zoom by lia. reflexivity.
  - unfold int32_min. lia.
  - unfold int32_max. change (2 ^ 31)%Z with 2147483648%Z.
    change (2 ^ 30)%Z with 1073741824%Z in Hp. lia.
  - change (pow2 1) with 2. lra.
  - apply (mercx_of_quotient zoom q Hz E). unfold int32_min, int32_max.
    change (2 ^ 31)%Z with 2147483648%Z.
    change (2 ^ 30)%Z with 1073741824%Z in Hp. lia.
Qed.

(** Two extents beyond the bounds the conversion is still defined, except
    above the maximum at zoom 30. *)
Lemma mercx_wide (zoom : Z) (q : Q) :
  (0 <= zoom <= 30)%Z -> - (3 * c) <= q <= 3 * c -> (zoom <= 29)%Z \/ q <= c ->
  mercx_to_tilex c zoom (Fin q)
  = Value (clamp (Qtrunc (quotient_x c zoom q)) 0 (2 ^ zoom - 1)).
Proof.
  intros Hz Hq Hcase. pose proof (pow2_zoom_bounds zoom Hz) as Hp.
  pose proof constant_pos as Hc0.
  change (2 ^ 30)%Z with 1073741824%Z in Hp.
  assert (Blo : binary64 (- (c * pow2 1))).
  { apply binary64_opp, binary64_scaled. lia. }
  assert (Elo : - (c * pow2 1) / exact_extent c zoom == inject_Z (- 2 ^ zoom)).
  { rewrite inject_Z_opp.
    assert (K := scaled_over_extent zoom 1).
    replace (1 - 1 + zoom)%Z with zoom in K by lia. rewrite <- K by lia.
    unfold Qdiv. ring. }
  destruct Hcase as [Hzoom | Hle].
  - destruct (quotient_between zoom q (- (c * pow2 1)) (c * pow2 2)
                (- 2 ^ zoom) (2 ^ (zoom + 1))) as [E [L U]];
      try assumption.
    + apply binary64_scaled. lia.
    + rewrite (scaled_over_extent zoom 2) by lia.
      replace (2 - 1 + zoom)%Z with (zoom + 1)%Z by lia. reflexivity.
    + unfold int32_min. change (2 ^ 31)%Z with 2147483648%Z. lia.
    + unfold int32_max. change (2 ^ 31)%Z with 2147483648%Z.
      rewrite Z.pow_add_r by lia. assert (2 ^ zoom <= 2 ^ 29)%Z.
      { apply Z.pow_le_mono_r; lia. }
      change (2 ^ 29)%Z with 536870912%Z in *. lia.
    + change (pow2 1) with 2. change (pow2 2) with 4. lra.
    + apply (mercx_of_quotient zoom q Hz E). unfold int32_min, int32_max.
      change (2 ^ 31)%Z with 2147483648%Z.
      rewrite Z.pow_add_r in U by lia. assert (2 ^ zoom <= 2 ^ 29)%Z.
      { apply Z.pow_le_mono_r; lia. }
      change (2 ^ 29)%Z with 536870912%Z in *. lia.
  - destruct (quotient_between zoom q (- (c * pow2 1)) (c * pow2 1)
                (- 2 ^ zoom) (2 ^ zoom)) as [E [L U]];
      try assumption.
    + apply binary64_scaled. lia.
    + rewrite (scaled_over_extent zoom 1) by lia.
      replace (1 - 1 + zoom)%Z with zoom by lia. reflexivity.
    + unfold int32_min. change (2 ^ 31)%Z with 2147483648%Z. lia.
    + unfold int32_max. change (2 ^ 31)%Z with 2147483648%Z. lia.
    + change (pow2 1) with 2. lra.
    + apply (mercx_of_quotient zoom q Hz E). unfold int32_min, int32_max.
      change (2 ^ 31)%Z with 2147483648%Z. lia.
Qed.

Lemma fadd_comm (a b : double) : fadd a b = fadd b a.
Proof.
  destruct a as [ | s | p]; destruct b as [ | t | q].
  - reflexivity.
  - reflexivity.
  - reflexivity.
  - reflexivity.
  - destruct s; destruct t; reflexivity.
  - reflexivity.
  - reflexivity.
  - reflexivity.
  - unfold fadd. apply round64_comp. ring.
Qed.

(** The row of [y] is the column of [-y]. *)
Lemma mercy_as_mercx (zoom : Z) (y : double) :
  mercy_to_tiley c zoom y = mercx_to_tilex c zoom (fneg y).
Proof.
  unfold mercy_to_tiley, mercx_to_tilex, fsub.
  rewrite (fadd_comm (Fin c) (fneg y)). reflexivity.
Qed.

Lemma in_bounds_fin (a : double) :
  in_bounds c a -> exists q : Q, a = Fin q /\ - c <= q <= c.
Proof.
  unfold in_bounds. destruct a as [ | s | q]; simpl.
  - intros [[] _].
  - intros [H1 H2]. congruence.
  - intros H. exists q. split; [reflexivity | exact H].
Qed.

Lemma fle_above (a : double) (v : Z) (zoom : Z) :
  (0 <= zoom <= 30)%Z -> fle (Fin c) a -> mercx_to_tilex c zoom a = Value v ->
  v = (2 ^ zoom - 1)%Z.
Proof.
  intros Hz Hle H. pose proof (pow2_zoom_bounds zoom Hz) as Hp.
  destruct (mercx_value_inv zoom a v Hz H) as (q & -> & ->).
  change (c <= q) in Hle. apply clamp_above; [lia | ].
  pose proof (Qtrunc_mono _ _ (quotient_x_mono zoom c q Hle)) as T.
  rewrite (Qtrunc_comp _ _ (quotient_x_max zoom Hz)), Qtrunc_pow2 in T by lia.
  lia.
Qed.

Lemma fle_below (a : double) (v : Z) (zoom : Z) :
  (0 <= zoom <= 30)%Z -> fle a (Fin (- c)) -> mercx_to_tilex c zoom a = Value v ->
  v = 0%Z.
Proof.
  intros Hz Hle H. pose proof (pow2_zoom_bounds zoom Hz) as Hp.
  destruct (mercx_value_inv zoom a v Hz H) as (q & -> & ->).
  change (q <= - c) in Hle. apply clamp_below; [lia | ].
  pose proof (Qtrunc_mono _ _ (quotient_x_mono zoom q (- c) Hle)) as T.
  rewrite (Qtrunc_comp _ _ (quotient_x_min zoom)) in T.
  exact T.
Qed.

Lemma mercx_value_range (a : double) (v : Z) (zoom : Z) :
  (0 <= zoom <= 30)%Z -> mercx_to_tilex c zoom a = Value v ->
  (0 <= v <= num_tiles_in_zoom zoom - 1)%Z.
Proof.
  intros Hz H. pose proof (pow2_zoom_bounds zoom Hz) as Hp.
  rewrite (num_tiles_in_zoom_pow zoom Hz).
  destruct (mercx_value_inv zoom a v Hz H) as (q & -> & ->).
  apply clamp_bounds. lia.
Qed.

Lemma fneg_involutive (a : double) : feq a a -> feq (fneg (fneg a)) a.
Proof.
  destruct a as [ | s | q]; simpl; [trivial | | ].
  - intros _. apply negb_involutive.
  - intros _. ring.
Qed.

Lemma fle_fneg (a b : double) : fle a b -> fle (fneg b) (fneg a).
Proof.
  destruct a as [ | s | p]; destruct b as [ | t | q]; simpl; try tauto.
  - destruct s; destruct t; simpl; intuition congruence.
  - destruct s; simpl; congruence.
  - destruct t; simpl; congruence.
  - intros H. lra.
Qed.

Lemma in_bounds_fneg (a : double) : in_bounds c a -> in_bounds c (fneg a).
Proof.
  intros H. destruct (in_bounds_fin a H) as (q & -> & Hq).
  unfold in_bounds. change (- c <= - q /\ - q <= c). lra.
Qed.

Lemma mercy_unfold (zoom : Z) (y : double) :
  mercy_to_tiley c zoom y
  = bind (static_cast_int32
            (fdiv (fsub (Fin c) y) (tile_extent_in_zoom c zoom)))
         (fun v =>
            Value (static_cast_uint32
                     (clamp v 0
                        (to_int32 (wrap_uint32 (num_tiles_in_zoom zoom - 1)))))).
Proof. reflexivity. Qed.

Lemma bind_Value_inv (A B : Type) (m : outcome A) (k : A -> outcome B) (b : B) :
  bind m k = Value b -> exists a : A, m = Value a /\ k a = Value b.
Proof.
  destruct m as [a | | ]; intros H.
  - exists a. split; [reflexivity | exact H].
  - discriminate H.
  - discriminate H.
Qed.

Lemma assert_true (b : bool) : b = true -> assert b = Value tt.
Proof. intros ->. reflexivity. Qed.

Lemma assert_Value_inv (b : bool) (u : unit) : assert b = Value u -> b = true.
Proof. destruct b; [reflexivity | discriminate]. Qed.

(** Monotonicity and range within the bounds, on the values. *)
Lemma mercx_monotone_fin (zoom : Z) (p q : Q) :
  (0 <= zoom <= 30)%Z -> - c <= p -> p <= q -> q <= c ->
  exists v1 v2 : Z,
    mercx_to_tilex c zoom (Fin p) = Value v1
    /\ mercx_to_tilex c zoom (Fin q) = Value v2
    /\ (v1 <= v2)%Z /\ (0 <= v1)%Z /\ (v2 <= 2 ^ zoom - 1)%Z.
Proof.
  intros Hz H1 H2 H3. pose proof (pow2_zoom_bounds zoom Hz) as Hp.
  exists (clamp (Qtrunc (quotient_x c zoom p)) 0 (2 ^ zoom - 1)).
  exists (clamp (Qtrunc (quotient_x c zoom q)) 0 (2 ^ zoom - 1)).
  split; [apply mercx_in_bounds; [exact Hz | lra] | ].
  split; [apply mercx_in_bounds; [exact Hz | lra] | ].
  split.
  - apply clamp_mono; [lia | ]. apply Qtrunc_mono, quotient_x_mono, H2.
  - split; apply clamp_bounds; lia.
Qed.

Lemma mercy_value_inv (zoom : Z) (y : double) (v : Z) :
  (0 <= zoom <= 30)%Z ->
  mercy_to_tiley c zoom y = Value v ->
  exists q : Q,
    y = Fin q /\ v = clamp (Qtrunc (quotient_x c zoom (- q))) 0 (2 ^ zoom - 1).
Proof.
  intros Hz H. rewrite mercy_as_mercx in H.
  destruct (mercx_value_inv zoom (fneg y) v Hz H) as (q' & E & Hv).
  destruct y as [ | s | q]; try discriminate E.
  exists q. split; [reflexivity | ]. injection E as E. rewrite E. exact Hv.
Qed.

Lemma valid_spec (t : Tile) :
  valid t = true
  <-> (z t <= 30 /\ x t < num_tiles_in_zoom (z t) /\ y t < num_tiles_in_zoom (z t))%Z.
Proof.
  unfold valid, max_zoom. rewrite Z.gtb_ltb.
  destruct (Z.ltb_spec 30 (z t)) as [Hz | Hz].
  - split; [discriminate | lia].
  - rewrite andb_true_iff, !Z.ltb_lt. split; [intros [H1 H2] | intros (_ & H1 & H2)];
      repeat split; assumption || lia.
Qed.

Lemma Tile_eq_spec (a b : Tile) :
  Tile_eq a b = true <-> (x a = x b /\ y a = y b /\ z a = z b).
Proof.
  unfold Tile_eq. rewrite !andb_true_iff, !Z.eqb_eq. tauto.
Qed.

Lemma Tile_lt_spec (a b : Tile) :
  Tile_lt a b = true
  <-> (z a < z b \/ (z a = z b /\ (x a < x b \/ (x a = x b /\ y a < y b))))%Z.
Proof.
  unfold Tile_lt. rewrite !Z.gtb_ltb.
  destruct (Z.ltb_spec (z a) (z b)); [split; [lia | reflexivity] | ].
  destruct (Z.ltb_spec (z b) (z a)); [split; [discriminate | lia] | ].
  destruct (Z.ltb_spec (x a) (x b)); [split; [lia | reflexivity] | ].
  destruct (Z.ltb_spec (x b) (x a)); [split; [discriminate | lia] | ].
  rewrite Z.ltb_lt. lia.
Qed.

Lemma Tile_xyz_Value_inv (zoom tx ty : Z) (t : Tile) :
  Tile_xyz zoom tx ty = Value t ->
  t = {| x := tx; y := ty; z := zoom |} /\ valid t = true.
Proof.
  unfold Tile_xyz. intros H.
  apply bind_Value_inv in H. destruct H as (u1 & A1 & H).
  apply bind_Value_inv in H. destruct H as (u2 & A2 & H).
  apply bind_Value_inv in H. destruct H as (u3 & A3 & H).
  apply assert_Value_inv in A1. apply assert_Value_inv in A2.
  apply assert_Value_inv in A3. injection H as <-.
  split; [reflexivity | ]. apply valid_spec.
  cbn [x y z] in *. unfold max_zoom in A1. lia.
Qed.

Lemma Tile_xyz_Value (zoom tx ty : Z) :
  (zoom <= 30)%Z -> (tx < num_tiles_in_zoom zoom)%Z ->
  (ty < num_tiles_in_zoom zoom)%Z ->
  Tile_xyz zoom tx ty = Value {| x := tx; y := ty; z := zoom |}.
Proof.
  intros Hz Hx Hy. unfold Tile_xyz. cbn [x y z].
  rewrite (assert_true (zoom <=? max_zoom)%Z) by (unfold max_zoom; lia).
  rewrite bind_Value.
  rewrite (assert_true (tx <? num_tiles_in_zoom zoom)%Z) by lia.
  rewrite bind_Value.
  rewrite (assert_true (ty <? num_tiles_in_zoom zoom)%Z) by lia.
  rewrite bind_Value. reflexivity.
Qed.

Lemma Tile_coordinates_unfold (zoom : Z) (coordinates : Coordinates.t) :
  Tile_coordinates c zoom coordinates
  = bind (assert (zoom <=? max_zoom)%Z) (fun _ =>
      bind (mercx_to_tilex c zoom (Coordinates.x coordinates)) (fun tx =>
        bind (mercy_to_tiley c zoom (Coordinates.y coordinates)) (fun ty =>
          Value {| x := tx; y := ty; z := zoom |}))).
Proof. reflexivity. Qed.

Lemma Tile_location_unfold (zoom : Z) (location : Location) :
  Tile_location c Location location_valid lonlat_to_mercator zoom location
  = bind (assert (zoom <=? max_zoom)%Z) (fun _ =>
      bind (assert (location_valid location)) (fun _ =>
        bind (mercx_to_tilex c zoom
                (Coordinates.x (lonlat_to_mercator location))) (fun tx =>
          bind (mercy_to_tiley c zoom
                  (Coordinates.y (lonlat_to_mercator location))) (fun ty =>
            Value {| x := tx; y := ty; z := zoom |})))).
Proof. reflexivity. Qed.

(** A tile the coordinate constructor returns is valid. *)
Lemma Tile_coordinates_valid (zoom : Z) (coordinates : Coordinates.t) (t : Tile) :
  (0 <= zoom <= 30)%Z ->
  Tile_coordinates c zoom coordinates = Value t -> valid t = true.
Proof.
  intros Hz H. rewrite Tile_coordinates_unfold in H.
  apply bind_Value_inv in H. destruct H as (u & _ & H).
  apply bind_Value_inv in H. destruct H as (tx & Hx & H).
  apply bind_Value_inv in H. destruct H as (ty & Hy & H).
  injection H as <-. apply valid_spec. cbn [x y z].
  rewrite mercy_as_mercx in Hy.
  pose proof (mercx_value_range _ _ _ Hz Hx).
  pose proof (mercx_value_range _ _ _ Hz Hy). lia.
Qed.

(** The coordinate constructor returns a tile once both conversions to
    [int32_t] are defined. *)
Lemma Tile_coordinates_defined (zoom : Z) (coordinates : Coordinates.t) (vx vy : Z) :
  (0 <= zoom <= 30)%Z ->
  static_cast_int32
    (fdiv (fadd (Coordinates.x coordinates) (Fin c)) (tile_extent_in_zoom c zoom))
  = Value vx ->
  static_cast_int32
    (fdiv (fsub (Fin c) (Coordinates.y coordinates)) (tile_extent_in_zoom c zoom))
  = Value vy ->
  Tile_coordinates c zoom coordinates
  = Value {| x := clamp vx 0 (2 ^ zoom - 1);
             y := clamp vy 0 (2 ^ zoom - 1);
             z := zoom |}.
Proof.
  intros Hz Hx Hy. rewrite Tile_coordinates_unfold.
  rewrite (assert_true (zoom <=? max_zoom)%Z) by (unfold max_zoom; lia).
  rewrite bind_Value, mercx_unfold, Hx, bind_Value.
  rewrite mercy_unfold, Hy, !bind_Value.
  rewrite !(tile_index_clamped zoom _ Hz). reflexivity.
Qed.

(** ** The statements of the specification *)

(** C1.  For every zoom level in [0, 30], [num_tiles_in_zoom zoom] is
    exactly [2^zoom]. *)
Theorem num_tiles_in_zoom_correct (zoom : Z) :
  (0 <= zoom <= 30)%Z -> num_tiles_in_zoom zoom = (2 ^ zoom)%Z.
Proof.
  intros H. unfold num_tiles_in_zoom, wrap_uint32, uint32_modulus.
  rewrite Z.shiftl_1_l. apply Z.mod_small.
  pose proof (pow2_zoom_bounds zoom H) as Hb.
  change (2 ^ 30)%Z with 1073741824%Z in Hb.
  change (2 ^ 32)%Z with 4294967296%Z. lia.
Qed.

(** What the clamp of [mercx_to_tilex] does deliver.  At [x = -max] the
    column is [0] and at [x = max] it is [num_tiles_in_zoom zoom - 1].
    Whenever a value is returned at all, for any [x], it lies in
    [[0, num_tiles_in_zoom zoom - 1]], is the last column for [x >= max]
    and the first for [x <= -max].  One is returned for every [x] in
    [[-3 max, 3 max]] at zoom 29 or less, and for every [x] in
    [[-3 max, max]] at zoom 30. *)
Theorem mercx_to_tilex_clamps (zoom : Z) :
  (0 <= zoom <= 30)%Z ->
  mercx_to_tilex c zoom (Fin (- c)) = Value 0%Z
  /\ mercx_to_tilex c zoom (Fin c) = Value (num_tiles_in_zoom zoom - 1)%Z
  /\ (forall (x : double) (v : Z),
        mercx_to_tilex c zoom x = Value v ->
        (0 <= v <= num_tiles_in_zoom zoom - 1)%Z
        /\ (fle (Fin c) x -> v = (num_tiles_in_zoom zoom - 1)%Z)
        /\ (fle x (Fin (- c)) -> v = 0%Z))
  /\ (forall q : Q,
        - (3 * c) <= q <= 3 * c -> (zoom <= 29)%Z \/ q <= c ->
        exists v : Z, mercx_to_tilex c zoom (Fin q) = Value v).
Proof.
  intros Hz. pose proof constant_pos as Hc0.
  rewrite (num_tiles_in_zoom_pow zoom Hz).
  assert (Hsat : forall (x : double) (v : Z),
             mercx_to_tilex c zoom x = Value v ->
             (0 <= v <= 2 ^ zoom - 1)%Z
             /\ (fle (Fin c) x -> v = (2 ^ zoom - 1)%Z)
             /\ (fle x (Fin (- c)) -> v = 0%Z)).
  { intros x v H. split; [ | split].
    - rewrite <- (num_tiles_in_zoom_pow zoom Hz).
      exact (mercx_value_range x v zoom Hz H).
    - intros Hle. exact (fle_above x v zoom Hz Hle H).
    - intros Hle. exact (fle_below x v zoom Hz Hle H). }
  split; [ | split; [ | split]].
  - pose proof (mercx_in_bounds zoom (- c) Hz) as H.
    rewrite H by lra. f_equal.
    destruct (Hsat _ _ (H ltac:(lra))) as (_ & _ & H0).
    apply H0. apply Qle_refl.
  - pose proof (mercx_in_bounds zoom c Hz) as H.
    rewrite H by lra. f_equal.
    destruct (Hsat _ _ (H ltac:(lra))) as (_ & H0 & _).
    apply H0. apply Qle_refl.
  - exact Hsat.
  - intros q Hq Hcase. eexists. exact (mercx_wide zoom q Hz Hq Hcase).
Qed.

(** C3.  Within the projection bounds [mercx_to_tilex] returns a column for
    every [x], the column lies in [[0, num_tiles_in_zoom zoom - 1]], and it
    does not decrease when [x] grows. *)
Theorem mercx_to_tilex_monotone (zoom : Z) (x1 x2 : double) :
  (0 <= zoom <= 30)%Z ->
  in_bounds c x1 -> in_bounds c x2 -> fle x1 x2 ->
  exists v1 v2 : Z,
    mercx_to_tilex c zoom x1 = Value v1
    /\ mercx_to_tilex c zoom x2 = Value v2
    /\ (v1 <= v2)%Z
    /\ (0 <= v1 <= num_tiles_in_zoom zoom - 1)%Z
    /\ (0 <= v2 <= num_tiles_in_zoom zoom - 1)%Z.
Proof.
  intros Hz B1 B2 Hle.
  destruct (in_bounds_fin x1 B1) as (q1 & -> & Hq1).
  destruct (in_bounds_fin x2 B2) as (q2 & -> & Hq2).
  change (q1 <= q2) in Hle.
  destruct (mercx_monotone_fin zoom q1 q2 Hz) as (v1 & v2 & E1 & E2 & Hv & L & U);
    try tauto.
  exists v1, v2. rewrite (num_tiles_in_zoom_pow zoom Hz).
  repeat split; try assumption; lia.
Qed.

(** What [mercy_to_tiley] does deliver.  Within the projection bounds it
    returns a row for every [y], the row lies in [[0, num_tiles_in_zoom zoom - 1]],
    and it does not increase when [y] grows.  At [y = max] the row is [0]
    and at [y = -max] it is the last one.  Whenever a value is returned at
    all, it lies in that range, is [0] for [y >= max] and the last row for
    [y <= -max]; one is returned for every [y] in [[-3 max, 3 max]] at zoom
    29 or less and for every [y] in [[-max, 3 max]] at zoom 30.  The row
    of [y] is the column of [-y]. *)
Theorem mercy_to_tiley_antitone_clamps (zoom : Z) :
  (0 <= zoom <= 30)%Z ->
  (forall y1 y2 : double,
      in_bounds c y1 -> in_bounds c y2 -> fle y1 y2 ->
      exists v1 v2 : Z,
        mercy_to_tiley c zoom y1 = Value v1
        /\ mercy_to_tiley c zoom y2 = Value v2
        /\ (v2 <= v1)%Z
        /\ (0 <= v2)%Z /\ (v1 <= num_tiles_in_zoom zoom - 1)%Z)
  /\ mercy_to_tiley c zoom (Fin c) = Value 0%Z
  /\ mercy_to_tiley c zoom (Fin (- c)) = Value (num_tiles_in_zoom zoom - 1)%Z
  /\ (forall (y : double) (v : Z),
        mercy_to_tiley c zoom y = Value v ->
        (0 <= v <= num_tiles_in_zoom zoom - 1)%Z
        /\ (fle (Fin c) y -> v = 0%Z)
        /\ (fle y (Fin (- c)) -> v = (num_tiles_in_zoom zoom - 1)%Z))
  /\ (forall q : Q,
        - (3 * c) <= q <= 3 * c -> (zoom <= 29)%Z \/ - c <= q ->
        exists v : Z, mercy_to_tiley c zoom (Fin q) = Value v)
  /\ (forall y : double,
        mercy_to_tiley c zoom y = mercx_to_tilex c zoom (fneg y)).
Proof.
  intros Hz. pose proof constant_pos as Hc0.
  rewrite (num_tiles_in_zoom_pow zoom Hz).
  assert (Hsat : forall (y : double) (v : Z),
             mercy_to_tiley c zoom y = Value v ->
             (0 <= v <= 2 ^ zoom - 1)%Z
             /\ (fle (Fin c) y -> v = 0%Z)
             /\ (fle y (Fin (- c)) -> v = (2 ^ zoom - 1)%Z)).
  { intros y v H. rewrite mercy_as_mercx in H. split; [ | split].
    - rewrite <- (num_tiles_in_zoom_pow zoom Hz).
      exact (mercx_value_range _ v zoom Hz H).
    - intros Hle. apply (fle_below (fneg y) v zoom Hz); [ | exact H].
      exact (fle_fneg _ _ Hle).
    - intros Hle. apply (fle_above (fneg y) v zoom Hz); [ | exact H].
      destruct y as [ | s | q]; try contradiction.
      + change (s = true) in Hle. subst s. reflexivity.
      + change (q <= - c) in Hle. change (c <= - q). lra. }
  split; [ | split; [ | split; [ | split; [ | split]]]].
  - intros y1 y2 B1 B2 Hle.
    destruct (in_bounds_fin y1 B1) as (q1 & -> & Hq1).
    destruct (in_bounds_fin y2 B2) as (q2 & -> & Hq2).
    change (q1 <= q2) in Hle.
    destruct (mercx_monotone_fin zoom (- q2) (- q1) Hz)
      as (v2 & v1 & E2 & E1 & Hv & L & U); try lra.
    exists v1, v2. rewrite !mercy_as_mercx.
    repeat split; try assumption.
  - rewrite mercy_as_mercx.
    pose proof (mercx_in_bounds zoom (- c) Hz) as H.
    change (fneg (Fin c)) with (Fin (- c)). rewrite H by lra. f_equal.
    apply (fle_below (Fin (- c)) _ zoom Hz); [apply Qle_refl | ].
    apply H. lra.
  - pose proof (mercx_in_bounds zoom (- - c) Hz) as H.
    rewrite mercy_as_mercx. change (fneg (Fin (- c))) with (Fin (- - c)).
    rewrite H by lra. f_equal.
    apply (fle_above (Fin (- - c)) _ zoom Hz);
      [change (c <= - - c); lra | ].
    apply H. lra.
  - exact Hsat.
  - intros q Hq Hcase. rewrite mercy_as_mercx.
    change (fneg (Fin q)) with (Fin (- q)). eexists.
    apply (mercx_wide zoom (- q) Hz); [lra | ].
    destruct Hcase as [Hzoom | Hge]; [left; exact Hzoom | right; lra].
  - intros y. apply mercy_as_mercx.
Qed.

(** C5.  [valid] holds exactly of the tiles with [z <= 30],
    [x < num_tiles_in_zoom z] and [y < num_tiles_in_zoom z]: the tile
    [Tile(2, 3, 3)] is valid, a tile with [x = num_tiles_in_zoom zoom] is
    not, and a tile with [z = 31] is not.  [valid] only reads the tile. *)
Theorem valid_iff_in_range :
  (forall t : Tile,
      valid t = true
      <-> (z t <= 30 /\ x t < num_tiles_in_zoom (z t)
           /\ y t < num_tiles_in_zoom (z t))%Z)
  /\ (exists t : Tile, Tile_xyz 2 3 3 = Value t /\ valid t = true)
  /\ (forall zoom ty : Z,
         valid {| x := num_tiles_in_zoom zoom; y := ty; z := zoom |} = false)
  /\ (forall tx ty : Z, valid {| x := tx; y := ty; z := 31 |} = false).
Proof.
  split; [exact valid_spec | split; [ | split]].
  - exists {| x := 3; y := 3; z := 2 |}. split; reflexivity.
  - intros zoom ty.
    destruct (valid {| x := num_tiles_in_zoom zoom; y := ty; z := zoom |}) eqn:E;
      [ | reflexivity].
    apply valid_spec in E. cbn [x y z] in E. lia.
  - intros tx ty. reflexivity.
Qed.

(** C6.  Two tiles are [==] exactly when their [x], [y] and [z] agree;
    [!=] is the negation of [==]; and two tiles the constructor builds are
    [==] exactly when they were built from the same zoom, x and y. *)
Theorem Tile_eq_iff_fields :
  (forall a b : Tile,
      Tile_eq a b = true <-> (x a = x b /\ y a = y b /\ z a = z b))
  /\ (forall a b : Tile, Tile_ne a b = negb (Tile_eq a b))
  /\ (forall (zoom tx ty zoom' tx' ty' : Z) (a b : Tile),
         Tile_xyz zoom tx ty = Value a ->
         Tile_xyz zoom' tx' ty' = Value b ->
         (Tile_eq a b = true <-> (zoom = zoom' /\ tx = tx' /\ ty = ty'))
         /\ (Tile_ne a b = false <-> Tile_eq a b = true)).
Proof.
  split; [exact Tile_eq_spec | split; [reflexivity | ]].
  intros zoom tx ty zoom' tx' ty' a b Ha Hb.
  apply Tile_xyz_Value_inv in Ha. apply Tile_xyz_Value_inv in Hb.
  destruct Ha as [-> _]. destruct Hb as [-> _].
  split.
  - rewrite Tile_eq_spec. cbn [x y z]. tauto.
  - unfold Tile_ne. apply negb_false_iff.
Qed.

(** C7.  [<] on tiles is a strict total order (irreflexive, transitive, and
    of [a < b], [b < a], [a == b] exactly one holds), it compares [z] first,
    then [x], then [y], and [Tile(1,0,0) < Tile(2,0,0) < Tile(2,0,1)]. *)
Theorem Tile_lt_strict_total_order :
  (forall a : Tile, Tile_lt a a = false)
  /\ (forall a b d : Tile,
         Tile_lt a b = true -> Tile_lt b d = true -> Tile_lt a d = true)
  /\ (forall a b : Tile,
         (Tile_lt a b = true /\ Tile_lt b a = false /\ Tile_eq a b = false)
         \/ (Tile_lt a b = false /\ Tile_lt b a = true /\ Tile_eq a b = false)
         \/ (Tile_lt a b = false /\ Tile_lt b a = false /\ Tile_eq a b = true))
  /\ (forall a b : Tile,
         Tile_lt a b = true
         <-> (z a < z b
              \/ (z a = z b /\ (x a < x b \/ (x a = x b /\ y a < y b))))%Z)
  /\ (exists t100 t200 t201 : Tile,
         Tile_xyz 1 0 0 = Value t100 /\ Tile_xyz 2 0 0 = Value t200
         /\ Tile_xyz 2 0 1 = Value t201
         /\ Tile_lt t100 t200 = true /\ Tile_lt t200 t201 = true).
Proof.
  assert (Hfalse : forall a b, Tile_lt a b = false <-> ~ Tile_lt a b = true).
  { intros a b. destruct (Tile_lt a b); split; congruence. }
  assert (Heqf : forall a b, Tile_eq a b = false <-> ~ Tile_eq a b = true).
  { intros a b. destruct (Tile_eq a b); split; congruence. }
  split; [ | split; [ | split; [ | split]]].
  - intros a. apply Hfalse. rewrite Tile_lt_spec. lia.
  - intros a b d. rewrite !Tile_lt_spec. lia.
  - intros a b. rewrite !Hfalse, Heqf, !Tile_lt_spec, Tile_eq_spec. lia.
  - exact Tile_lt_spec.
  - exists {| x := 0; y := 0; z := 1 |}, {| x := 0; y := 0; z := 2 |},
      {| x := 0; y := 1; z := 2 |}.
    repeat split.
Qed.

(** C8.  For a valid location the location constructor and the coordinate
    constructor applied to the projected location have the same outcome,
    so the same [x], [y] and [z]; when the zoom is in [0, 30] and the
    projected coordinates lie within the projection bounds, that outcome
    is a valid tile. *)
Theorem Tile_location_agrees_with_coordinates (zoom : Z) (location : Location) :
  location_valid location = true ->
  Tile_location c Location location_valid lonlat_to_mercator zoom location
  = Tile_coordinates c zoom (lonlat_to_mercator location)
  /\ ((0 <= zoom <= 30)%Z ->
      in_bounds c (Coordinates.x (lonlat_to_mercator location)) ->
      in_bounds c (Coordinates.y (lonlat_to_mercator location)) ->
      exists t : Tile,
        Tile_location c Location location_valid lonlat_to_mercator zoom location
        = Value t
        /\ Tile_coordinates c zoom (lonlat_to_mercator location) = Value t
        /\ valid t = true).
Proof.
  intros Hv.
  assert (E : Tile_location c Location location_valid lonlat_to_mercator
                zoom location
              = Tile_coordinates c zoom (lonlat_to_mercator location)).
  { rewrite Tile_location_unfold, Tile_coordinates_unfold, Hv.
    destruct (assert (zoom <=? max_zoom)%Z) as [u | | ]; reflexivity. }
  split; [exact E | ].
  intros Hz Bx By. rewrite E.
  destruct (in_bounds_fin _ Bx) as (qx & Ex & Hqx).
  destruct (in_bounds_fin _ By) as (qy & Ey & Hqy).
  pose proof (mercx_in_bounds zoom qx Hz Hqx) as Hx.
  pose proof (mercx_in_bounds zoom (- qy) Hz) as Hy.
  assert (Ht : Tile_coordinates c zoom (lonlat_to_mercator location)
               = Value {| x := clamp (Qtrunc (quotient_x c zoom qx)) 0 (2 ^ zoom - 1);
                          y := clamp (Qtrunc (quotient_x c zoom (- qy))) 0 (2 ^ zoom - 1);
                          z := zoom |}).
  { rewrite Tile_coordinates_unfold.
    rewrite (assert_true (zoom <=? max_zoom)%Z) by (unfold max_zoom; lia).
    rewrite bind_Value, Ex, Hx, bind_Value, mercy_as_mercx, Ey.
    change (fneg (Fin qy)) with (Fin (- qy)).
    rewrite Hy by lra. rewrite bind_Value. reflexivity. }
  eexists. split; [exact Ht | split; [exact Ht | ]].
  - apply valid_spec. cbn [x y z]. rewrite (num_tiles_in_zoom_pow zoom Hz).
    pose proof (pow2_zoom_bounds zoom Hz) as Hp.
    pose proof (clamp_bounds (Qtrunc (quotient_x c zoom qx)) 0 (2 ^ zoom - 1)).
    pose proof (clamp_bounds (Qtrunc (quotient_x c zoom (- qy))) 0 (2 ^ zoom - 1)).
    lia.
Qed.

(** C9.  For every zoom in [0, 30] the double product
    [tile_extent_in_zoom zoom * num_tiles_in_zoom zoom] is the double
    [max * 2], whose value is exactly twice the constant: the two agree
    with no rounding error at all. *)
Theorem tile_extent_times_num_tiles (zoom : Z) :
  (0 <= zoom <= 30)%Z ->
  fmul (tile_extent_in_zoom c zoom) (of_Z (num_tiles_in_zoom zoom))
  = fmul (Fin c) (of_Z 2)
  /\ feq (fmul (tile_extent_in_zoom c zoom) (of_Z (num_tiles_in_zoom zoom)))
         (Fin (2 * c)).
Proof.
  intros Hz.
  destruct (tile_extent_fin zoom Hz) as (E & HE & EE).
  destruct (of_Z_num_tiles zoom Hz) as (n & Hn & En).
  assert (B2 : binary64 (c * 2)).
  { change 2 with (pow2 1). apply binary64_scaled. lia. }
  destruct (round64_exact (c * 2) B2) as [E1 E2].
  assert (Eprod : E * n == c * 2).
  { rewrite EE, En. unfold exact_extent. field.
    apply Qnot_eq_sym, Qlt_not_eq, pow2_pos. }
  assert (Efmul : fmul (tile_extent_in_zoom c zoom) (of_Z (num_tiles_in_zoom zoom))
                  = fmul (Fin c) (of_Z 2)).
  { rewrite HE, Hn, of_Z_2. unfold fmul. apply round64_comp, Eprod. }
  split; [exact Efmul | ].
  rewrite Efmul, of_Z_2. unfold fmul. rewrite E1.
  change (rnd (c * 2) == 2 * c). rewrite E2. ring.
Qed.

(** C10.  For every zoom in [0, 30] a tile built by the coordinate
    constructor or by the location constructor is valid: whenever the two
    conversions to [int32_t] are defined the constructor returns a tile,
    and every tile either constructor returns satisfies [valid]. *)
Theorem constructed_tiles_are_valid (zoom : Z) :
  (0 <= zoom <= 30)%Z ->
  (forall (coordinates : Coordinates.t) (vx vy : Z),
      static_cast_int32
        (fdiv (fadd (Coordinates.x coordinates) (Fin c))
              (tile_extent_in_zoom c zoom)) = Value vx ->
      static_cast_int32
        (fdiv (fsub (Fin c) (Coordinates.y coordinates))
              (tile_extent_in_zoom c zoom)) = Value vy ->
      exists t : Tile,
        Tile_coordinates c zoom coordinates = Value t /\ valid t = true)
  /\ (forall (location : Location) (vx vy : Z),
         location_valid location = true ->
         static_cast_int32
           (fdiv (fadd (Coordinates.x (lonlat_to_mercator location)) (Fin c))
                 (tile_extent_in_zoom c zoom)) = Value vx ->
         static_cast_int32
           (fdiv (fsub (Fin c) (Coordinates.y (lonlat_to_mercator location)))
                 (tile_extent_in_zoom c zoom)) = Value vy ->
         exists t : Tile,
           Tile_location c Location location_valid lonlat_to_mercator
             zoom location = Value t
           /\ valid t = true)
  /\ (forall (coordinates : Coordinates.t) (t : Tile),
         Tile_coordinates c zoom coordinates = Value t -> valid t = true)
  /\ (forall (location : Location) (t : Tile),
         Tile_location c Location location_valid lonlat_to_mercator
           zoom location = Value t ->
         valid t = true).
Proof.
  intros Hz.
  assert (Hloc : forall location : Location,
             location_valid location = true ->
             Tile_location c Location location_valid lonlat_to_mercator
               zoom location
             = Tile_coordinates c zoom (lonlat_to_mercator location)).
  { intros location Hv.
    rewrite Tile_location_unfold, Tile_coordinates_unfold, Hv.
    destruct (assert (zoom <=? max_zoom)%Z) as [u | | ]; reflexivity. }
  split; [ | split; [ | split]].
  - intros coordinates vx vy Hx Hy.
    pose proof (Tile_coordinates_defined zoom coordinates vx vy Hz Hx Hy) as E.
    eexists. split; [exact E | ].
    exact (Tile_coordinates_valid zoom coordinates _ Hz E).
  - intros location vx vy Hv Hx Hy. rewrite (Hloc location Hv).
    pose proof (Tile_coordinates_defined zoom _ vx vy Hz Hx Hy) as E.
    eexists. split; [exact E | ].
    exact (Tile_coordinates_valid zoom _ _ Hz E).
  - intros coordinates t H. exact (Tile_coordinates_valid zoom coordinates t Hz H).
  - intros location t H. rewrite Tile_location_unfold in H.
    apply bind_Value_inv in H. destruct H as (u1 & A1 & H).
    apply bind_Value_inv in H. destruct H as (u2 & A2 & H).
    apply assert_Value_inv in A2.
    apply (Tile_coordinates_valid zoom (lonlat_to_mercator location) t Hz).
    rewrite Tile_coordinates_unfold, A1, bind_Value. exact H.
Qed.

End TileFacts.

(** ** The statements at libosmium's constant *)

Section Libosmium.

#[local] Open Scope Q_scope.

Lemma max_coordinate_libosmium_binary64 :
  binary64_constant max_coordinate_libosmium.
Proof.
  exists 5378777688351703%Z, (-28)%Z.
  split; [ | split]; [vm_compute; split; reflexivity | lia | reflexivity].
Qed.

Lemma num_tiles_in_zoom_correct_witness :
  num_tiles_in_zoom 30 = (2 ^ 30)%Z.
Proof. apply (num_tiles_in_zoom_correct 30). lia. Defined.

Lemma mercx_to_tilex_clamps_witness :
  mercx_to_tilex max_coordinate_libosmium 30 (Fin (- max_coordinate_libosmium))
  = Value 0%Z
  /\ mercx_to_tilex max_coordinate_libosmium 30 (Fin max_coordinate_libosmium)
     = Value (num_tiles_in_zoom 30 - 1)%Z.
Proof.
  destruct (mercx_to_tilex_clamps max_coordinate_libosmium
              max_coordinate_libosmium_binary64 30) as (H1 & H2 & _).
  - lia.
  - split; [exact H1 | exact H2].
Defined.

(** C2.  The conversion to [int32_t] comes before the clamp.  At zoom 30
    and [x = max + 2 * max] the quotient [(x + max) / extent] is exactly
    [2^31], one more than [int32_t] holds: the conversion is undefined and
    no column in [[0, num_tiles_in_zoom 30 - 1]] is returned, where the
    clamp was to give the last column.  The same [x] at zoom 29 has the
    quotient [2^30] and does get the last column. *)
Theorem mercx_to_tilex_undefined_beyond_max :
  fle (Fin max_coordinate_libosmium) beyond_max_libosmium
  /\ fdiv (fadd beyond_max_libosmium (Fin max_coordinate_libosmium))
          (tile_extent_in_zoom max_coordinate_libosmium 30)
     = Fin (inject_Z (2 ^ 31))
  /\ mercx_to_tilex max_coordinate_libosmium 30 beyond_max_libosmium = Undefined
  /\ ~ (exists v : Z,
          mercx_to_tilex max_coordinate_libosmium 30 beyond_max_libosmium
          = Value v
          /\ (0 <= v <= num_tiles_in_zoom 30 - 1)%Z)
  /\ mercx_to_tilex max_coordinate_libosmium 29 beyond_max_libosmium
     = Value (num_tiles_in_zoom 29 - 1)%Z.
Proof.
  assert (E : mercx_to_tilex max_coordinate_libosmium 30 beyond_max_libosmium
              = Undefined) by (vm_compute; reflexivity).
  split; [vm_compute; discriminate | ].
  split; [vm_compute; reflexivity | ].
  split; [exact E | ].
  split; [ | vm_compute; reflexivity].
  intros (v & H & _). rewrite E in H. discriminate H.
Qed.

Lemma mercx_to_tilex_monotone_witness :
  exists v1 v2 : Z,
    mercx_to_tilex max_coordinate_libosmium 12 (Fin (- 100)) = Value v1
    /\ mercx_to_tilex max_coordinate_libosmium 12 (Fin (201 # 2)) = Value v2
    /\ (v1 <= v2)%Z
    /\ (0 <= v1 <= num_tiles_in_zoom 12 - 1)%Z
    /\ (0 <= v2 <= num_tiles_in_zoom 12 - 1)%Z.
Proof.
  apply (mercx_to_tilex_monotone max_coordinate_libosmium
           max_coordinate_libosmium_binary64 12).
  - lia.
  - split; vm_compute; discriminate.
  - split; vm_compute; discriminate.
  - vm_compute; discriminate.
Defined.

Lemma mercy_to_tiley_antitone_clamps_witness :
  mercy_to_tiley max_coordinate_libosmium 30 (Fin max_coordinate_libosmium)
  = Value 0%Z
  /\ mercy_to_tiley max_coordinate_libosmium 30 (Fin (- max_coordinate_libosmium))
     = Value (num_tiles_in_zoom 30 - 1)%Z.
Proof.
  destruct (mercy_to_tiley_antitone_clamps max_coordinate_libosmium
              max_coordinate_libosmium_binary64 30) as (_ & H1 & H2 & _).
  - lia.
  - split; [exact H1 | exact H2].
Defined.

(** C4.  The same conversion before the clamp, in the other direction.  At
    zoom 30 and [y = -(max + 2 * max)] the quotient [(max - y) / extent] is
    exactly [2^31]: the conversion to [int32_t] is undefined and no row in
    [[0, num_tiles_in_zoom 30 - 1]] is returned, where the clamp was to
    give the last row.  The same [y] at zoom 29 does get the last row. *)
Theorem mercy_to_tiley_undefined_beyond_min :
  fle (fneg beyond_max_libosmium) (Fin (- max_coordinate_libosmium))
  /\ fdiv (fsub (Fin max_coordinate_libosmium) (fneg beyond_max_libosmium))
          (tile_extent_in_zoom max_coordinate_libosmium 30)
     = Fin (inject_Z (2 ^ 31))
  /\ mercy_to_tiley max_coordinate_libosmium 30 (fneg beyond_max_libosmium)
     = Undefined
  /\ ~ (exists v : Z,
          mercy_to_tiley max_coordinate_libosmium 30 (fneg beyond_max_libosmium)
          = Value v
          /\ (0 <= v <= num_tiles_in_zoom 30 - 1)%Z)
  /\ mercy_to_tiley max_coordinate_libosmium 29 (fneg beyond_max_libosmium)
     = Value (num_tiles_in_zoom 29 - 1)%Z.
Proof.
  assert (E : mercy_to_tiley max_coordinate_libosmium 30
                (fneg beyond_max_libosmium) = Undefined)
    by (vm_compute; reflexivity).
  split; [vm_compute; discriminate | ].
  split; [vm_compute; reflexivity | ].
  split; [exact E | ].
  split; [ | vm_compute; reflexivity].
  intros (v & H & _). rewrite E in H. discriminate H.
Qed.

Lemma Tile_location_agrees_with_coordinates_witness :
  Tile_location max_coordinate_libosmium Z equator_valid equator_to_mercator 12 10%Z
  = Tile_coordinates max_coordinate_libosmium 12 (equator_to_mercator 10%Z).
Proof.
  destruct (Tile_location_agrees_with_coordinates max_coordinate_libosmium
              max_coordinate_libosmium_binary64 Z equator_valid
              equator_to_mercator 12 10%Z) as [H _].
  - reflexivity.
  - exact H.
Defined.

Lemma tile_extent_times_num_tiles_witness :
  fmul (tile_extent_in_zoom max_coordinate_libosmium 30)
       (of_Z (num_tiles_in_zoom 30))
  = fmul (Fin max_coordinate_libosmium) (of_Z 2).
Proof.
  destruct (tile_extent_times_num_tiles max_coordinate_libosmium
              max_coordinate_libosmium_binary64 30) as [H _].
  - lia.
  - exact H.
Defined.

Lemma constructed_tiles_are_valid_witness :
  exists t : Tile,
    Tile_coordinates max_coordinate_libosmium 30
      (Coordinates.make (Fin (1000001 # 8)) (Fin (- 7000003 # 4))) = Value t
    /\ valid t = true.
Proof.
  destruct (constructed_tiles_are_valid max_coordinate_libosmium
              max_coordinate_libosmium_binary64 Z equator_valid
              equator_to_mercator 30) as (H & _).
  - lia.
  - apply (H (Coordinates.make (Fin (1000001 # 8)) (Fin (- 7000003 # 4)))
             540220077%Z 583759201%Z).
    + vm_compute. reflexivity.
    + vm_compute. reflexivity.
Defined.

End Libosmium.

(** ** Further properties of the header *)

Section TileExtras.

#[local] Open Scope Q_scope.

Variable c : Q.
Hypothesis Hc : binary64_constant c.

Variable Location : Type.
Variable location_valid : Location -> bool.
Variable lonlat_to_mercator : Location -> Coordinates.t.

Lemma clamp_inside (value min max : Z) :
  (min <= value <= max)%Z -> clamp value min max = value.
Proof.
  intros H. unfold clamp.
  destruct (Z.ltb_spec value min); [lia | ].
  destruct (Z.ltb_spec max value); [lia | reflexivity].
Qed.

(** [detail::clamp] with ordered bounds is the projection onto the interval:
    the result lies in [[min, max]], a value inside is returned unchanged,
    clamping twice changes nothing, no point of the interval is nearer to
    the value than the result, and the result is [max min (min value max)]. *)
Theorem clamp_projects_onto_interval (value min max : Z) :
  (min <= max)%Z ->
  (min <= clamp value min max <= max)%Z
  /\ ((min <= value <= max)%Z -> clamp value min max = value)
  /\ clamp (clamp value min max) min max = clamp value min max
  /\ (forall w : Z,
         (min <= w <= max)%Z ->
         (Z.abs (clamp value min max - value) <= Z.abs (w - value))%Z)
  /\ clamp value min max = Z.max min (Z.min value max).
Proof.
  intros H. unfold clamp.
  destruct (Z.ltb_spec value min) as [H1 | H1].
  - destruct (Z.ltb_spec min min); [lia | ].
    destruct (Z.ltb_spec max min); [lia | ].
    repeat split; intros; lia.
  - destruct (Z.ltb_spec max value) as [H2 | H2].
    + destruct (Z.ltb_spec max min); [lia | ].
      destruct (Z.ltb_spec max max); [lia | ].
      repeat split; intros; lia.
    + destruct (Z.ltb_spec value min); [lia | ].
      destruct (Z.ltb_spec max value); [lia | ].
      repeat split; intros; lia.
Qed.

(** With the bounds the wrong way round [detail::clamp] still returns one
    of its bounds: [min] for a value below [min], [max] for every other. *)
Theorem clamp_inverted_bounds (value min max : Z) :
  (max < min)%Z ->
  clamp value min max = if (value <? min)%Z then min else max.
Proof.
  intros H. unfold clamp.
  destruct (Z.ltb_spec value min) as [H1 | H1]; [reflexivity | ].
  destruct (Z.ltb_spec max value); [reflexivity | lia].
Qed.

(** Each zoom level has twice the tiles of the one before, up to zoom 31,
    where [1U << 31] still fits [uint32_t]; the count is never zero. *)
Theorem num_tiles_in_zoom_doubles (zoom : Z) :
  (0 <= zoom <= 30)%Z ->
  num_tiles_in_zoom (zoom + 1) = (2 * num_tiles_in_zoom zoom)%Z
  /\ (0 < num_tiles_in_zoom zoom)%Z
  /\ (num_tiles_in_zoom (zoom + 1) < 2 ^ 32)%Z.
Proof.
  intros H. pose proof (pow2_zoom_bounds zoom H) as Hb.
  change (2 ^ 30)%Z with 1073741824%Z in Hb.
  rewrite (num_tiles_in_zoom_pow zoom H).
  assert (E : num_tiles_in_zoom (zoom + 1) = (2 * 2 ^ zoom)%Z).
  { unfold num_tiles_in_zoom, wrap_uint32, uint32_modulus.
    rewrite Z.shiftl_1_l, Z.pow_add_r by lia.
    change (2 ^ 1)%Z with 2%Z. change (2 ^ 32)%Z with 4294967296%Z.
    rewrite Z.mod_small by lia. lia. }
  rewrite E. change (2 ^ 32)%Z with 4294967296%Z. lia.
Qed.

(** The three assertions of [Tile(zoom, tx, ty)] are exactly [valid()]:
    the constructor returns the tile with the given fields when that tile
    is valid and fails an assertion otherwise; so every valid tile is
    rebuilt from its own fields. *)
Theorem Tile_xyz_asserts_valid :
  (forall zoom tx ty : Z,
      Tile_xyz zoom tx ty
      = if valid {| x := tx; y := ty; z := zoom |}
        then Value {| x := tx; y := ty; z := zoom |}
        else AssertionFailed)
  /\ (forall t : Tile, valid t = true -> Tile_xyz (z t) (x t) (y t) = Value t).
Proof.
  assert (H : forall zoom tx ty : Z,
             Tile_xyz zoom tx ty
             = if valid {| x := tx; y := ty; z := zoom |}
               then Value {| x := tx; y := ty; z := zoom |}
               else AssertionFailed).
  { intros zoom tx ty. unfold Tile_xyz, valid, max_zoom. cbn [x y z].
    rewrite Z.gtb_ltb.
    destruct (Z.leb_spec zoom 30) as [Hz | Hz];
      destruct (Z.ltb_spec 30 zoom) as [Hz' | Hz']; try lia.
    - rewrite (assert_true true eq_refl), bind_Value.
      destruct (tx <? num_tiles_in_zoom zoom)%Z; [ | reflexivity].
      rewrite (assert_true true eq_refl), bind_Value.
      destruct (ty <? num_tiles_in_zoom zoom)%Z; reflexivity.
    - reflexivity. }
  split; [exact H | ].
  intros [tx ty zoom] Hv. cbn [x y z]. rewrite H, Hv. reflexivity.
Qed.

(** [operator==] is an equivalence that holds of identical tiles only, and
    equal tiles are interchangeable on either side of [operator<]. *)
Theorem Tile_eq_congruence :
  (forall a : Tile, Tile_eq a a = true)
  /\ (forall a b : Tile, Tile_eq a b = Tile_eq b a)
  /\ (forall a b d : Tile,
         Tile_eq a b = true -> Tile_eq b d = true -> Tile_eq a d = true)
  /\ (forall a b : Tile, Tile_eq a b = true <-> a = b)
  /\ (forall a a' b b' : Tile,
         Tile_eq a a' = true -> Tile_eq b b' = true ->
         Tile_lt a b = Tile_lt a' b').
Proof.
  assert (Hid : forall a b : Tile, Tile_eq a b = true <-> a = b).
  { intros [ax ay az] [bx b_y bz]. rewrite Tile_eq_spec. cbn [x y z].
    split; [intros (-> & -> & ->); reflexivity | intros E; injection E; tauto]. }
  split; [ | split; [ | split; [ | split]]].
  - intros a. apply Hid. reflexivity.
  - intros a b. destruct (Tile_eq a b) eqn:E1; destruct (Tile_eq b a) eqn:E2;
      try reflexivity.
    + apply Hid in E1. subst b. rewrite (proj2 (Hid a a) eq_refl) in E2.
      discriminate E2.
    + apply Hid in E2. subst b. rewrite (proj2 (Hid a a) eq_refl) in E1.
      discriminate E1.
  - intros a b d H1 H2. apply Hid in H1. apply Hid in H2. apply Hid. congruence.
  - exact Hid.
  - intros a a' b b' H1 H2. apply Hid in H1. apply Hid in H2. subst. reflexivity.
Qed.

Lemma static_cast_int32_no_assert (a : double) :
  static_cast_int32 a <> AssertionFailed.
Proof.
  destruct a as [ | s | q]; try discriminate.
  rewrite static_cast_int32_Fin.
  destruct ((int32_min <=? Qtrunc q) && (Qtrunc q <=? int32_max))%Z; discriminate.
Qed.

Lemma mercx_no_assert (zoom : Z) (a : double) :
  mercx_to_tilex c zoom a <> AssertionFailed.
Proof.
  rewrite mercx_unfold.
  destruct (static_cast_int32
              (fdiv (fadd a (Fin c)) (tile_extent_in_zoom c zoom))) eqn:E.
  - rewrite bind_Value. discriminate.
  - exfalso. exact (static_cast_int32_no_assert _ E).
  - rewrite bind_Undefined. discriminate.
Qed.

(** In a build with assertions, the coordinate constructor fails one
    exactly when the zoom is above 30, and the location constructor exactly
    when the zoom is above 30 or the location is invalid; up to zoom 31,
    where the shift is defined, the conversions themselves never fail an
    assertion. *)
Theorem constructors_assertion_failures :
  (forall (zoom : Z) (coordinates : Coordinates.t),
      (0 <= zoom)%Z ->
      (Tile_coordinates c zoom coordinates = AssertionFailed <-> (30 < zoom)%Z))
  /\ (forall (zoom : Z) (location : Location),
         (0 <= zoom)%Z ->
         (Tile_location c Location location_valid lonlat_to_mercator
            zoom location = AssertionFailed
          <-> ((30 < zoom)%Z \/ location_valid location = false)))
  /\ (forall (zoom : Z) (a : double),
         (0 <= zoom <= 31)%Z ->
         mercx_to_tilex c zoom a <> AssertionFailed
         /\ mercy_to_tiley c zoom a <> AssertionFailed).
Proof.
  assert (Hbody : forall (zoom : Z) (a b : double),
             bind (mercx_to_tilex c zoom a) (fun tx =>
               bind (mercy_to_tiley c zoom b) (fun ty =>
                 Value {| x := tx; y := ty; z := zoom |}))
             <> AssertionFailed).
  { intros zoom a b.
    destruct (mercx_to_tilex c zoom a) as [tx | | ] eqn:Ex.
    - rewrite bind_Value.
      destruct (mercy_to_tiley c zoom b) as [ty | | ] eqn:Ey.
      + rewrite bind_Value. discriminate.
      + exfalso. rewrite mercy_as_mercx in Ey. exact (mercx_no_assert _ _ Ey).
      + rewrite bind_Undefined. discriminate.
    - exfalso. exact (mercx_no_assert _ _ Ex).
    - rewrite bind_Undefined. discriminate. }
  split; [ | split].
  - intros zoom coordinates _. rewrite Tile_coordinates_unfold. unfold max_zoom.
    destruct (Z.leb_spec zoom 30) as [Hz | Hz].
    + rewrite (assert_true true eq_refl), bind_Value.
      split; [intros H; exfalso; exact (Hbody _ _ _ H) | lia].
    + split; [intros _; exact Hz | reflexivity].
  - intros zoom location _. rewrite Tile_location_unfold. unfold max_zoom.
    destruct (Z.leb_spec zoom 30) as [Hz | Hz].
    + rewrite (assert_true true eq_refl), bind_Value.
      destruct (location_valid location).
      * rewrite (assert_true true eq_refl), bind_Value.
        split; [intros H; exfalso; exact (Hbody _ _ _ H) | ].
        intros [H | H]; [lia | discriminate H].
      * split; [intros _; right; reflexivity | reflexivity].
    + split; [intros _; left; exact Hz | reflexivity].
  - intros zoom a _. split; [apply mercx_no_assert | ].
    rewrite mercy_as_mercx. apply mercx_no_assert.
Qed.

Lemma fdiv_Fin (p q : Q) : ~ q == 0 -> fdiv (Fin p) (Fin q) = round64 (p / q).
Proof. intros H. unfold fdiv. rewrite (Qzero_false q H). reflexivity. Qed.

Lemma binary64_constant_binary64 : binary64 c.
Proof.
  apply (binary64_comp (c * pow2 0)); [change (pow2 0) with 1; ring | ].
  apply (binary64_scaled c Hc). lia.
Qed.

(** The tile extent carries no rounding error: its value is exactly
    [2 * max / num_tiles_in_zoom zoom], and halving the extent of one zoom
    level gives the extent of the next. *)
Theorem tile_extent_in_zoom_exact (zoom : Z) :
  (0 <= zoom <= 30)%Z ->
  feq (tile_extent_in_zoom c zoom)
      (Fin (c * 2 / inject_Z (num_tiles_in_zoom zoom)))
  /\ ((zoom < 30)%Z ->
      feq (fdiv (tile_extent_in_zoom c zoom) (of_Z 2))
          (tile_extent_in_zoom c (zoom + 1))).
Proof.
  intros Hz. destruct (tile_extent_fin c Hc zoom Hz) as (E & HE & EE).
  rewrite HE, (num_tiles_in_zoom_pow zoom Hz). split.
  - change (E == c * 2 / inject_Z (2 ^ zoom)).
    rewrite EE, <- (pow2_Z zoom) by lia. reflexivity.
  - intros Hlt.
    destruct (tile_extent_fin c Hc (zoom + 1)) as (E' & HE' & EE'); [lia | ].
    rewrite HE', of_Z_2, fdiv_Fin by discriminate.
    assert (Ehalf : E / 2 == exact_extent c (zoom + 1)).
    { rewrite EE. unfold exact_extent. rewrite pow2_add.
      change (pow2 1) with 2. field.
      apply Qnot_eq_sym, Qlt_not_eq, pow2_pos. }
    rewrite (round64_comp _ _ Ehalf).
    assert (B : binary64 (exact_extent c (zoom + 1))).
    { apply (binary64_comp (c * pow2 (1 - (zoom + 1))));
        [symmetry; apply exact_extent_eq | ].
      apply (binary64_scaled c Hc). lia. }
    destruct (round64_exact _ B) as [E1 E2]. rewrite E1.
    change (rnd (exact_extent c (zoom + 1)) == E'). rewrite E2, EE'.
    reflexivity.
Qed.

Lemma quotient_x_origin (zoom : Z) (q : Q) :
  (0 <= zoom <= 30)%Z -> q == 0 -> quotient_x c zoom q == pow2 (zoom - 1).
Proof.
  intros Hz Hq. unfold quotient_x.
  destruct binary64_constant_binary64 as [Rc _].
  assert (E : q + c == c) by (rewrite Hq; ring).
  assert (Eq : rnd (q + c) / exact_extent c zoom == pow2 (zoom - 1)).
  { rewrite (rnd_comp _ _ E), Rc, exact_extent_eq.
    replace (zoom - 1)%Z with (0 - (1 - zoom))%Z by lia.
    rewrite (pow2_sub 0). change (pow2 0) with 1. field.
    split; apply Qnot_eq_sym, Qlt_not_eq;
      first [apply pow2_pos | apply (constant_pos c Hc)]. }
  rewrite (rnd_comp_eq _ _ Eq).
  apply (rnd_exact _ 1 (zoom - 1)); [reflexivity | unfold emin; lia | ring].
Qed.

Lemma Qtrunc_half_pow2 (zoom : Z) :
  (0 <= zoom)%Z -> Qtrunc (pow2 (zoom - 1)) = (2 ^ zoom / 2)%Z.
Proof.
  intros Hz. destruct (Z.eq_dec zoom 0) as [-> | Hne].
  - reflexivity.
  - rewrite Qtrunc_pow2 by lia.
    replace zoom with (zoom - 1 + 1)%Z at 2 by lia.
    rewrite Z.pow_add_r by lia. change (2 ^ 1)%Z with 2%Z.
    rewrite Z.div_mul by lia. reflexivity.
Qed.

(** The origin of the projection lies in the middle tile: column and row
    [num_tiles_in_zoom zoom / 2], which is [0] at zoom 0 and half the
    count above. *)
Theorem origin_in_middle_tile (zoom : Z) :
  (0 <= zoom <= 30)%Z ->
  mercx_to_tilex c zoom (Fin 0) = Value (num_tiles_in_zoom zoom / 2)%Z
  /\ mercy_to_tiley c zoom (Fin 0) = Value (num_tiles_in_zoom zoom / 2)%Z.
Proof.
  intros Hz. pose proof (constant_pos c Hc) as Hc0.
  pose proof (pow2_zoom_bounds zoom Hz) as Hp.
  rewrite (num_tiles_in_zoom_pow zoom Hz).
  assert (Hmid : forall q : Q,
             q == 0 ->
             mercx_to_tilex c zoom (Fin q) = Value (2 ^ zoom / 2)%Z).
  { intros q Hq. rewrite (mercx_in_bounds c Hc zoom q Hz) by (rewrite Hq; lra).
    rewrite (Qtrunc_comp _ _ (quotient_x_origin zoom q Hz Hq)).
    rewrite Qtrunc_half_pow2 by lia. f_equal.
    apply clamp_inside. generalize dependent (2 ^ zoom)%Z. intros a Ha.
    pose proof (Z.div_pos a 2). pose proof (Z.mul_div_le a 2). lia. }
  split.
  - apply Hmid. reflexivity.
  - rewrite mercy_as_mercx. change (fneg (Fin 0)) with (Fin (- 0)).
    apply Hmid. reflexivity.
Qed.

(** Doubling commutes with rounding above the subnormal range. *)
Lemma rnd_double (q : Q) : pow2 (-1022) <= q -> rnd (2 * q) == 2 * rnd q.
Proof.
  intros Hq. pose proof (pow2_pos (-1022)) as H0.
  assert (Hpos : 0 < q) by lra.
  destruct (ilog2_spec q Hpos) as [S1 S2].
  assert (He : (-1022 <= ilog2 q)%Z).
  { assert (H : (-1022 < ilog2 q + 1)%Z) by (apply pow2_lt_inv; lra). lia. }
  assert (E2 : ilog2 (2 * q) = (ilog2 q + 1)%Z).
  { apply ilog2_unique; [lra | ].
    rewrite (pow2_add (ilog2 q + 1) 1), (pow2_add (ilog2 q) 1).
    rewrite (pow2_add (ilog2 q) 1) in S2. change (pow2 1) with 2 in *. lra. }
  assert (Cq : cexp q = (ilog2 q - 52)%Z).
  { rewrite (cexp_pos q Hpos). unfold emin. lia. }
  assert (C2 : cexp (2 * q) = (cexp q + 1)%Z).
  { rewrite (cexp_pos (2 * q)) by lra. rewrite E2, Cq. unfold emin. lia. }
  rewrite !rnd_eq, C2.
  pose proof (pow2_pos (cexp q)) as Hc'.
  assert (Ep : pow2 (cexp q + 1) == pow2 (cexp q) * 2).
  { rewrite pow2_add. reflexivity. }
  rewrite (rne_comp (2 * q / pow2 (cexp q + 1)) (q / pow2 (cexp q))).
  - rewrite Ep. ring.
  - rewrite Ep. field. lra.
Qed.

Lemma Qtrunc_nonneg (r : Q) : 0 <= r -> Qtrunc r = Qfloor r.
Proof.
  intros H. unfold Qtrunc. apply Qle_bool_iff in H. rewrite H. reflexivity.
Qed.

Lemma Qfloor_double (r : Q) :
  Qfloor (2 * r) = (2 * Qfloor r)%Z \/ Qfloor (2 * r) = (2 * Qfloor r + 1)%Z.
Proof.
  pose proof (Qfloor_le r) as L. pose proof (Qlt_floor r) as U.
  rewrite inject_Z_plus in U.
  pose proof (Qfloor_le (2 * r)) as L2. pose proof (Qlt_floor (2 * r)) as U2.
  rewrite inject_Z_plus in U2.
  assert (A : (2 * Qfloor r < Qfloor (2 * r) + 1)%Z).
  { apply <- inject_Z_lt. rewrite inject_Z_mult, inject_Z_plus.
    change (inject_Z 2) with 2. change (inject_Z 1) with 1 in *. lra. }
  assert (B : (Qfloor (2 * r) < 2 * Qfloor r + 2)%Z).
  { apply <- inject_Z_lt. rewrite inject_Z_plus, inject_Z_mult.
    change (inject_Z 2) with 2. change (inject_Z 1) with 1 in *. lra. }
  lia.
Qed.

Lemma Qtrunc_small (r : Q) : 0 <= r -> r < 1 -> Qtrunc r = 0%Z.
Proof.
  intros H0 H1. rewrite (Qtrunc_nonneg r H0).
  pose proof (Qfloor_resp_le 0 r H0) as L. change (Qfloor 0) with 0%Z in L.
  pose proof (Qfloor_le r) as Lr.
  assert (U : (Qfloor r < 1)%Z).
  { apply <- inject_Z_lt. change (inject_Z 1) with 1. lra. }
  lia.
Qed.

(** The truncated quotient one zoom level down is twice the one above, or
    one more. *)
Lemma quotient_child (zoom : Z) (q : Q) :
  (0 <= zoom <= 29)%Z -> - c <= q ->
  (0 <= Qtrunc (quotient_x c zoom q))%Z
  /\ (Qtrunc (quotient_x c (zoom + 1) q) = (2 * Qtrunc (quotient_x c zoom q))%Z
      \/ Qtrunc (quotient_x c (zoom + 1) q)
         = (2 * Qtrunc (quotient_x c zoom q) + 1)%Z).
Proof.
  intros Hz Hq. unfold quotient_x.
  pose proof (exact_extent_pos c Hc zoom) as HE.
  assert (Hs : 0 <= rnd (q + c)) by (apply rnd_nonneg; lra).
  set (s := rnd (q + c)) in *.
  assert (Ehalf : s / exact_extent c (zoom + 1) == 2 * (s / exact_extent c zoom)).
  { unfold exact_extent. rewrite pow2_add. change (pow2 1) with 2. field.
    split; apply Qnot_eq_sym, Qlt_not_eq;
      first [apply pow2_pos | apply (constant_pos c Hc)]. }
  rewrite (rnd_comp_eq _ _ Ehalf).
  assert (Ht : 0 <= s / exact_extent c zoom).
  { apply Qle_shift_div_l; [exact HE | lra]. }
  set (t := s / exact_extent c zoom) in *.
  pose proof (rnd_nonneg t Ht) as Hr.
  destruct (Qlt_le_dec t (pow2 (-1022))) as [Hsmall | Hnormal].
  - assert (R1 : rnd t <= pow2 (-1022)).
    { rewrite <- (rnd_exact (pow2 (-1022)) 1 (-1022));
        [apply rnd_mono; lra | reflexivity | unfold emin; lia | ring]. }
    assert (R2 : rnd (2 * t) <= pow2 (-1021)).
    { rewrite <- (rnd_exact (pow2 (-1021)) 1 (-1021));
        [ | reflexivity | unfold emin; lia | ring].
      assert (P : pow2 (-1021) == 2 * pow2 (-1022)) by reflexivity.
      apply rnd_mono. lra. }
    assert (P1 : pow2 (-1022) < 1) by reflexivity.
    assert (P2 : pow2 (-1021) < 1) by reflexivity.
    assert (Hr2 : 0 <= rnd (2 * t)) by (apply rnd_nonneg; lra).
    rewrite (Qtrunc_small (rnd t)) by lra.
    rewrite (Qtrunc_small (rnd (2 * t))) by lra.
    split; [lia | left; reflexivity].
  - rewrite (Qtrunc_comp _ _ (rnd_double t Hnormal)).
    rewrite (Qtrunc_nonneg (rnd t) Hr), (Qtrunc_nonneg (2 * rnd t)) by lra.
    split.
    + pose proof (Qfloor_resp_le 0 (rnd t) Hr) as L.
      change (Qfloor 0) with 0%Z in L. exact L.
    + apply Qfloor_double.
Qed.

Lemma clamp_child (zoom T T' : Z) :
  (0 <= zoom)%Z -> (0 <= T)%Z -> (T' = 2 * T \/ T' = 2 * T + 1)%Z ->
  (clamp T' 0 (2 ^ (zoom + 1) - 1) = 2 * clamp T 0 (2 ^ zoom - 1)
   \/ clamp T' 0 (2 ^ (zoom + 1) - 1) = 2 * clamp T 0 (2 ^ zoom - 1) + 1)%Z.
Proof.
  intros Hz HT HT'. rewrite Z.pow_add_r by lia. change (2 ^ 1)%Z with 2%Z.
  pose proof (Z.pow_pos_nonneg 2 zoom) as Hp.
  generalize dependent (2 ^ zoom)%Z. intros a Ha.
  unfold clamp.
  destruct (Z.ltb_spec T' 0); destruct (Z.ltb_spec T 0);
    destruct (Z.ltb_spec (a * 2 - 1) T'); destruct (Z.ltb_spec (a - 1) T); lia.
Qed.

Lemma mercx_child (zoom : Z) (p : Q) :
  (0 <= zoom <= 29)%Z -> - c <= p <= c ->
  exists v w : Z,
    mercx_to_tilex c zoom (Fin p) = Value v
    /\ mercx_to_tilex c (zoom + 1) (Fin p) = Value w
    /\ (w = 2 * v \/ w = 2 * v + 1)%Z.
Proof.
  intros Hz Hp.
  destruct (quotient_child zoom p Hz) as [T0 TT]; [lra | ].
  eexists. eexists.
  split; [apply (mercx_in_bounds c Hc zoom p); [lia | exact Hp] | ].
  split; [apply (mercx_in_bounds c Hc (zoom + 1) p); [lia | exact Hp] | ].
  apply clamp_child; [lia | exact T0 | exact TT].
Qed.

(** Tiles nest across zoom levels: within the projection bounds the column
    (row) at zoom [zoom + 1] is one of the two children [2 v], [2 v + 1] of
    the column (row) [v] at zoom [zoom]. *)
Theorem tiles_nest_across_zoom_levels (zoom : Z) (a : double) :
  (0 <= zoom <= 29)%Z -> in_bounds c a ->
  (exists v w : Z,
      mercx_to_tilex c zoom a = Value v
      /\ mercx_to_tilex c (zoom + 1) a = Value w
      /\ (w = 2 * v \/ w = 2 * v + 1)%Z)
  /\ (exists v w : Z,
         mercy_to_tiley c zoom a = Value v
         /\ mercy_to_tiley c (zoom + 1) a = Value w
         /\ (w = 2 * v \/ w = 2 * v + 1)%Z).
Proof.
  intros Hz B. destruct (in_bounds_fin c a B) as (q & -> & Hq). split.
  - apply (mercx_child zoom q Hz Hq).
  - rewrite !mercy_as_mercx. change (fneg (Fin q)) with (Fin (- q)).
    apply (mercx_child zoom (- q) Hz). lra.
Qed.

(** The tile the coordinate constructor builds one zoom level down is a
    child of the tile it builds at this level: for coordinates within the
    projection bounds both constructions return valid tiles, and halving the
    indices of the deeper tile gives the indices of the other. *)
Theorem Tile_coordinates_parent (zoom : Z) (coordinates : Coordinates.t) :
  (0 <= zoom <= 29)%Z ->
  in_bounds c (Coordinates.x coordinates) ->
  in_bounds c (Coordinates.y coordinates) ->
  exists t t' : Tile,
    Tile_coordinates c zoom coordinates = Value t
    /\ Tile_coordinates c (zoom + 1) coordinates = Value t'
    /\ valid t = true /\ valid t' = true
    /\ z t' = (z t + 1)%Z /\ x t = (x t' / 2)%Z /\ y t = (y t' / 2)%Z.
Proof.
  intros Hz Bx By.
  destruct (in_bounds_fin c _ Bx) as (qx & Ex & Hqx).
  destruct (in_bounds_fin c _ By) as (qy & Ey & Hqy).
  destruct (mercx_child zoom qx Hz Hqx) as (vx & wx & X1 & X2 & HX).
  destruct (mercx_child zoom (- qy) Hz) as (vy & wy & Y1 & Y2 & HY); [lra | ].
  assert (T1 : Tile_coordinates c zoom coordinates
               = Value {| x := vx; y := vy; z := zoom |}).
  { rewrite Tile_coordinates_unfold.
    rewrite (assert_true (zoom <=? max_zoom)%Z) by (unfold max_zoom; lia).
    rewrite bind_Value, Ex, X1, bind_Value, mercy_as_mercx, Ey.
    change (fneg (Fin qy)) with (Fin (- qy)).
    rewrite Y1, bind_Value. reflexivity. }
  assert (T2 : Tile_coordinates c (zoom + 1) coordinates
               = Value {| x := wx; y := wy; z := zoom + 1 |}).
  { rewrite Tile_coordinates_unfold.
    rewrite (assert_true (zoom + 1 <=? max_zoom)%Z) by (unfold max_zoom; lia).
    rewrite bind_Value, Ex, X2, bind_Value, mercy_as_mercx, Ey.
    change (fneg (Fin qy)) with (Fin (- qy)).
    rewrite Y2, bind_Value. reflexivity. }
  exists {| x := vx; y := vy; z := zoom |}, {| x := wx; y := wy; z := zoom + 1 |}.
  split; [exact T1 | split; [exact T2 | ]].
  split; [apply (Tile_coordinates_valid c Hc zoom coordinates _); [lia | exact T1] | ].
  split; [apply (Tile_coordinates_valid c Hc (zoom + 1) coordinates _);
          [lia | exact T2] | ].
  cbn [x y z]. split; [reflexivity | ].
  split; [destruct HX as [-> | ->] | destruct HY as [-> | ->]].
  - rewrite Z.mul_comm, Z.div_mul by lia. reflexivity.
  - rewrite Z.mul_comm, Z.div_add_l by lia. change (1 / 2)%Z with 0%Z. lia.
  - rewrite Z.mul_comm, Z.div_mul by lia. reflexivity.
  - rewrite Z.mul_comm, Z.div_add_l by lia. change (1 / 2)%Z with 0%Z. lia.
Qed.

(** A NaN or an infinite coordinate never yields a tile index: the
    conversion to [int32_t] is undefined for it, in both directions. *)
Theorem non_finite_coordinate_undefined (zoom : Z) :
  (0 <= zoom <= 30)%Z ->
  (forall a : double,
      a = NaN \/ (exists s : bool, a = Inf s) ->
      mercx_to_tilex c zoom a = Undefined /\ mercy_to_tiley c zoom a = Undefined)
  /\ (forall (a : double) (v : Z),
         mercx_to_tilex c zoom a = Value v \/ mercy_to_tiley c zoom a = Value v ->
         exists q : Q, a = Fin q).
Proof.
  intros Hz.
  assert (Hfin : forall (a : double) (v : Z),
             mercx_to_tilex c zoom a = Value v \/ mercy_to_tiley c zoom a = Value v ->
             exists q : Q, a = Fin q).
  { intros a v [H | H].
    - destruct (mercx_value_inv c Hc zoom a v Hz H) as (q & E & _).
      exists q. exact E.
    - destruct (mercy_value_inv c Hc zoom a v Hz H) as (q & E & _).
      exists q. exact E. }
  split; [ | exact Hfin].
  intros a Ha. split.
  - destruct (mercx_to_tilex c zoom a) as [v | | ] eqn:E.
    + destruct (Hfin a v (or_introl E)) as (q & ->).
      destruct Ha as [Ha | [s Ha]]; discriminate Ha.
    + exfalso. exact (mercx_no_assert zoom a E).
    + reflexivity.
  - destruct (mercy_to_tiley c zoom a) as [v | | ] eqn:E.
    + destruct (Hfin a v (or_intror E)) as (q & ->).
      destruct Ha as [Ha | [s Ha]]; discriminate Ha.
    + exfalso. rewrite mercy_as_mercx in E. exact (mercx_no_assert zoom _ E).
    + reflexivity.
Qed.

(** Wherever both results are defined, also outside the projection bounds,
    a larger [x] never gives a smaller column and a larger [y] never gives
    a larger row. *)
Theorem monotone_wherever_defined (zoom : Z) (a b : double) (v w : Z) :
  (0 <= zoom <= 30)%Z -> fle a b ->
  (mercx_to_tilex c zoom a = Value v -> mercx_to_tilex c zoom b = Value w ->
   (v <= w)%Z)
  /\ (mercy_to_tiley c zoom a = Value v -> mercy_to_tiley c zoom b = Value w ->
      (w <= v)%Z).
Proof.
  intros Hz Hle. pose proof (pow2_zoom_bounds zoom Hz) as Hp. split.
  - intros Ha Hb.
    destruct (mercx_value_inv c Hc zoom a v Hz Ha) as (p & -> & ->).
    destruct (mercx_value_inv c Hc zoom b w Hz Hb) as (q & -> & ->).
    change (p <= q) in Hle.
    apply clamp_mono; [lia | ].
    apply Qtrunc_mono, (quotient_x_mono c Hc), Hle.
  - intros Ha Hb.
    destruct (mercy_value_inv c Hc zoom a v Hz Ha) as (p & -> & ->).
    destruct (mercy_value_inv c Hc zoom b w Hz Hb) as (q & -> & ->).
    change (p <= q) in Hle.
    apply clamp_mono; [lia | ].
    apply Qtrunc_mono, (quotient_x_mono c Hc). lra.
Qed.

Lemma round64_Fin_inv (q r : Q) :
  round64 q = Fin r -> Qabs (rnd q) < pow2 emax.
Proof.
  unfold round64.
  destruct (Qle_bool (pow2 emax) (Qabs (rnd q))) eqn:E; [discriminate | ].
  intros _. apply Qnot_le_lt. intros H. apply Qle_bool_iff in H. congruence.
Qed.

Lemma quotient_x_eq (zoom : Z) (q : Q) :
  quotient_x c zoom q = rnd (rnd (q + c) / exact_extent c zoom).
Proof. reflexivity. Qed.

(** What a returned value tells about the intermediate results. *)
Lemma mercx_value_finite (zoom : Z) (q : Q) (v : Z) :
  (0 <= zoom <= 30)%Z ->
  mercx_to_tilex c zoom (Fin q) = Value v ->
  Qabs (rnd (q + c)) < pow2 emax
  /\ Qabs (quotient_x c zoom q) < pow2 emax
  /\ (int32_min <= Qtrunc (quotient_x c zoom q) <= int32_max)%Z.
Proof.
  intros Hz H. rewrite mercx_unfold, fadd_Fin in H.
  destruct (tile_extent_fin c Hc zoom Hz) as (E & HE & EE).
  destruct (round64 (q + c)) as [ | s | r] eqn:E1.
  - rewrite fdiv_NaN, bind_Undefined in H. discriminate H.
  - rewrite HE, fdiv_Inf_Fin, static_cast_int32_Inf, bind_Undefined in H.
    discriminate H.
  - pose proof (round64_Fin_inv _ _ E1) as F1.
    assert (Er : round64 (q + c) = Fin (rnd (q + c))) by (apply round64_fin, F1).
    rewrite Er in E1. injection E1 as <-.
    rewrite (fdiv_extent c Hc zoom _ Hz) in H.
    destruct (round64 (rnd (q + c) / exact_extent c zoom)) as [ | s | r] eqn:E2.
    + rewrite bind_Undefined in H. discriminate H.
    + rewrite static_cast_int32_Inf, bind_Undefined in H. discriminate H.
    + pose proof (round64_Fin_inv _ _ E2) as F2.
      rewrite <- (quotient_x_eq zoom q) in F2.
      assert (Er2 : round64 (rnd (q + c) / exact_extent c zoom)
                    = Fin (quotient_x c zoom q)).
      { rewrite (quotient_x_eq zoom q). apply round64_fin.
        rewrite <- (quotient_x_eq zoom q). exact F2. }
      rewrite Er2 in E2. injection E2 as <-.
      rewrite static_cast_int32_Fin in H.
      destruct (Z.leb_spec int32_min (Qtrunc (quotient_x c zoom q))) as [L | L];
        destruct (Z.leb_spec (Qtrunc (quotient_x c zoom q)) int32_max) as [U | U].
      * split; [exact F1 | split; [exact F2 | split; assumption]].
      * cbn [andb] in H. rewrite bind_Undefined in H. discriminate H.
      * cbn [andb] in H. rewrite bind_Undefined in H. discriminate H.
      * cbn [andb] in H. rewrite bind_Undefined in H. discriminate H.
Qed.

Lemma Qabs_between (lo hi r B : Q) :
  Qabs lo < B -> Qabs hi < B -> lo <= r <= hi -> Qabs r < B.
Proof.
  intros H1 H2 H. apply Qabs_Qlt_condition in H1. apply Qabs_Qlt_condition in H2.
  apply Qabs_Qlt_condition. lra.
Qed.

(** The coordinates with a defined result form an interval: between two
    coordinates whose conversions are defined, every coordinate has a
    defined conversion, and its result lies between theirs. *)
Theorem defined_between_defined (zoom : Z) (a b x : double) (v w : Z) :
  (0 <= zoom <= 30)%Z -> fle a x -> fle x b ->
  (mercx_to_tilex c zoom a = Value v -> mercx_to_tilex c zoom b = Value w ->
   exists u : Z, mercx_to_tilex c zoom x = Value u /\ (v <= u <= w)%Z)
  /\ (mercy_to_tiley c zoom a = Value v -> mercy_to_tiley c zoom b = Value w ->
      exists u : Z, mercy_to_tiley c zoom x = Value u /\ (w <= u <= v)%Z).
Proof.
  intros Hz Hax Hxb. pose proof (pow2_zoom_bounds zoom Hz) as Hp.
  assert (Hmid : forall (p r q : Q) (v w : Z),
             p <= r -> r <= q ->
             mercx_to_tilex c zoom (Fin p) = Value v ->
             mercx_to_tilex c zoom (Fin q) = Value w ->
             exists u : Z,
               mercx_to_tilex c zoom (Fin r) = Value u /\ (v <= u <= w)%Z).
  { intros p r q v0 w0 Hpr Hrq Hv Hw.
    destruct (mercx_value_finite zoom p v0 Hz Hv) as (F1 & F2 & L1 & _).
    destruct (mercx_value_finite zoom q w0 Hz Hw) as (G1 & G2 & _ & U2).
    destruct (mercx_value_inv c Hc zoom _ _ Hz Hv) as (p' & Ep & ->).
    injection Ep as <-.
    destruct (mercx_value_inv c Hc zoom _ _ Hz Hw) as (q' & Eq & ->).
    injection Eq as <-.
    pose proof (quotient_x_mono c Hc zoom p r Hpr) as M1.
    pose proof (quotient_x_mono c Hc zoom r q Hrq) as M2.
    pose proof (Qtrunc_mono _ _ M1) as T1. pose proof (Qtrunc_mono _ _ M2) as T2.
    assert (S1 : rnd (p + c) <= rnd (r + c)) by (apply rnd_mono; lra).
    assert (S2 : rnd (r + c) <= rnd (q + c)) by (apply rnd_mono; lra).
    exists (clamp (Qtrunc (quotient_x c zoom r)) 0 (2 ^ zoom - 1)). split.
    - apply (mercx_of_quotient c zoom r Hz); [ | lia].
      rewrite fadd_Fin, round64_fin
        by (apply (Qabs_between (rnd (p + c)) (rnd (q + c)));
            [exact F1 | exact G1 | split; assumption]).
      rewrite (fdiv_extent c Hc zoom _ Hz), (quotient_x_eq zoom r).
      apply round64_fin. rewrite <- (quotient_x_eq zoom r).
      apply (Qabs_between (quotient_x c zoom p) (quotient_x c zoom q));
        [exact F2 | exact G2 | split; [exact M1 | exact M2]].
    - split; apply clamp_mono; lia. }
  split; intros Ha Hb.
  - destruct (mercx_value_inv c Hc zoom _ _ Hz Ha) as (p & -> & _).
    destruct (mercx_value_inv c Hc zoom _ _ Hz Hb) as (q & -> & _).
    destruct x as [ | s | r].
    + exact (False_ind _ Hax).
    + change (s = false) in Hax. change (s = true) in Hxb. congruence.
    + change (p <= r) in Hax. change (r <= q) in Hxb.
      exact (Hmid p r q v w Hax Hxb Ha Hb).
  - destruct (mercy_value_inv c Hc zoom _ _ Hz Ha) as (p & -> & _).
    destruct (mercy_value_inv c Hc zoom _ _ Hz Hb) as (q & -> & _).
    destruct x as [ | s | r].
    + exact (False_ind _ Hax).
    + change (s = false) in Hax. change (s = true) in Hxb. congruence.
    + change (p <= r) in Hax. change (r <= q) in Hxb.
      rewrite mercy_as_mercx in Ha, Hb |- *.
      change (fneg (Fin p)) with (Fin (- p)) in Ha.
      change (fneg (Fin q)) with (Fin (- q)) in Hb.
      change (fneg (Fin r)) with (Fin (- r)).
      assert (H1 : - q <= - r) by lra. assert (H2 : - r <= - p) by lra.
      destruct (Hmid (- q) (- r) (- p) w v H1 H2 Hb Ha) as (u & Hu & Hr).
      exists u. split; [exact Hu | lia].
Qed.

(** A finite coordinate gets an index exactly when the conversion of its
    quotient is defined: the rounded sum and the rounded quotient by the
    tile extent are finite and the truncated quotient is a value of
    [int32_t].  The index is then that truncation clamped into
    [[0, num_tiles_in_zoom zoom - 1]].  For [mercy_to_tiley] the quotient
    is that of [-y]. *)
Theorem value_iff_quotient_fits (zoom : Z) (q : Q) (v : Z) :
  (0 <= zoom <= 30)%Z ->
  (mercx_to_tilex c zoom (Fin q) = Value v
   <-> quotient_fits c zoom q
       /\ v = clamp (Qtrunc (quotient_x c zoom q)) 0
                 (num_tiles_in_zoom zoom - 1))
  /\ (mercy_to_tiley c zoom (Fin q) = Value v
      <-> quotient_fits c zoom (- q)
          /\ v = clamp (Qtrunc (quotient_x c zoom (- q))) 0
                    (num_tiles_in_zoom zoom - 1)).
Proof.
  intros Hz. rewrite (num_tiles_in_zoom_pow zoom Hz).
  assert (Hx : forall p : Q,
             mercx_to_tilex c zoom (Fin p) = Value v
             <-> quotient_fits c zoom p
                 /\ v = clamp (Qtrunc (quotient_x c zoom p)) 0 (2 ^ zoom - 1)).
  { intros p. split.
    - intros H. split; [exact (mercx_value_finite zoom p v Hz H) | ].
      destruct (mercx_value_inv c Hc zoom _ _ Hz H) as (p' & E & Hv).
      injection E as <-. exact Hv.
    - intros [(F1 & F2 & F3) ->].
      apply (mercx_of_quotient c zoom p Hz); [ | exact F3].
      rewrite fadd_Fin, (round64_fin _ F1), (fdiv_extent c Hc zoom _ Hz).
      rewrite (quotient_x_eq zoom p). apply round64_fin.
      rewrite <- (quotient_x_eq zoom p). exact F2. }
  split; [apply Hx | ].
  rewrite mercy_as_mercx. change (fneg (Fin q)) with (Fin (- q)). apply Hx.
Qed.

End TileExtras.

(** ** The further properties at libosmium's constant *)

Section LibosmiumExtras.

#[local] Open Scope Q_scope.

Lemma clamp_projects_onto_interval_witness :
  (0 <= clamp 5 0 3 <= 3)%Z /\ clamp (clamp 5 0 3) 0 3 = clamp 5 0 3.
Proof.
  destruct (clamp_projects_onto_interval 5 0 3) as (H1 & _ & H2 & _).
  - lia.
  - split; [exact H1 | exact H2].
Defined.

Lemma clamp_inverted_bounds_witness : clamp 5 10 0 = 10%Z.
Proof. apply (clamp_inverted_bounds 5 10 0). lia. Defined.

Lemma num_tiles_in_zoom_doubles_witness :
  num_tiles_in_zoom (30 + 1) = (2 * num_tiles_in_zoom 30)%Z.
Proof.
  destruct (num_tiles_in_zoom_doubles 30) as (H & _).
  - lia.
  - exact H.
Defined.

Lemma tile_extent_in_zoom_exact_witness :
  feq (tile_extent_in_zoom max_coordinate_libosmium 30)
      (Fin (max_coordinate_libosmium * 2 / inject_Z (num_tiles_in_zoom 30))).
Proof.
  destruct (tile_extent_in_zoom_exact max_coordinate_libosmium
              max_coordinate_libosmium_binary64 30) as (H & _).
  - lia.
  - exact H.
Defined.

Lemma origin_in_middle_tile_witness :
  mercx_to_tilex max_coordinate_libosmium 4 (Fin 0)
  = Value (num_tiles_in_zoom 4 / 2)%Z.
Proof.
  destruct (origin_in_middle_tile max_coordinate_libosmium
              max_coordinate_libosmium_binary64 4) as (H & _).
  - lia.
  - exact H.
Defined.

Lemma tiles_nest_across_zoom_levels_witness :
  exists v w : Z,
    mercx_to_tilex max_coordinate_libosmium 11 (Fin (1000001 # 8)) = Value v
    /\ mercx_to_tilex max_coordinate_libosmium (11 + 1) (Fin (1000001 # 8)) = Value w
    /\ (w = 2 * v \/ w = 2 * v + 1)%Z.
Proof.
  destruct (tiles_nest_across_zoom_levels max_coordinate_libosmium
              max_coordinate_libosmium_binary64 11 (Fin (1000001 # 8)))
    as (H & _).
  - lia.
  - split; vm_compute; discriminate.
  - exact H.
Defined.

Lemma Tile_coordinates_parent_witness :
  exists t t' : Tile,
    Tile_coordinates max_coordinate_libosmium 11
      (Coordinates.make (Fin (1000001 # 8)) (Fin (- 7000003 # 4))) = Value t
    /\ Tile_coordinates max_coordinate_libosmium (11 + 1)
         (Coordinates.make (Fin (1000001 # 8)) (Fin (- 7000003 # 4))) = Value t'
    /\ valid t = true /\ valid t' = true
    /\ z t' = (z t + 1)%Z /\ x t = (x t' / 2)%Z /\ y t = (y t' / 2)%Z.
Proof.
  apply (Tile_coordinates_parent max_coordinate_libosmium
           max_coordinate_libosmium_binary64 11).
  - lia.
  - split; vm_compute; discriminate.
  - split; vm_compute; discriminate.
Defined.

Lemma non_finite_coordinate_undefined_witness :
  mercx_to_tilex max_coordinate_libosmium 30 (Inf false) = Undefined
  /\ mercy_to_tiley max_coordinate_libosmium 30 (Inf false) = Undefined.
Proof.
  destruct (non_finite_coordinate_undefined max_coordinate_libosmium
              max_coordinate_libosmium_binary64 30) as (H & _).
  - lia.
  - apply H. right. exists false. reflexivity.
Defined.

Lemma monotone_wherever_defined_witness :
  mercx_to_tilex max_coordinate_libosmium 10 (Fin (- 30000000)) = Value 0%Z
  /\ mercx_to_tilex max_coordinate_libosmium 10 (Fin 30000000) = Value 1023%Z
  /\ (0 <= 1023)%Z.
Proof.
  assert (E1 : mercx_to_tilex max_coordinate_libosmium 10 (Fin (- 30000000))
               = Value 0%Z) by (vm_compute; reflexivity).
  assert (E2 : mercx_to_tilex max_coordinate_libosmium 10 (Fin 30000000)
               = Value 1023%Z) by (vm_compute; reflexivity).
  split; [exact E1 | split; [exact E2 | ]].
  destruct (monotone_wherever_defined max_coordinate_libosmium
              max_coordinate_libosmium_binary64 10
              (Fin (- 30000000)) (Fin 30000000) 0 1023) as (H & _).
  - lia.
  - vm_compute. discriminate.
  - exact (H E1 E2).
Defined.

Lemma defined_between_defined_witness :
  exists u : Z,
    mercx_to_tilex max_coordinate_libosmium 10 (Fin 25000000) = Value u
    /\ (0 <= u <= 1023)%Z.
Proof.
  destruct (defined_between_defined max_coordinate_libosmium
              max_coordinate_libosmium_binary64 10
              (Fin (- 30000000)) (Fin 30000000) (Fin 25000000) 0 1023)
    as (H & _).
  - lia.
  - vm_compute. discriminate.
  - vm_compute. discriminate.
  - apply H; vm_compute; reflexivity.
Defined.

Lemma value_iff_quotient_fits_witness :
  mercx_to_tilex max_coordinate_libosmium 30
    (Fin (2 * max_coordinate_libosmium))
  = Value (num_tiles_in_zoom 30 - 1)%Z.
Proof.
  destruct (value_iff_quotient_fits max_coordinate_libosmium
              max_coordinate_libosmium_binary64 30
              (2 * max_coordinate_libosmium)
              (num_tiles_in_zoom 30 - 1)%Z) as ([_ H] & _).
  - lia.
  - apply H. split; [ | vm_compute; reflexivity].
    split; [vm_compute; reflexivity | ].
    split; [vm_compute; reflexivity | ].
    split; vm_compute; discriminate.
Defined.

Lemma constructors_assertion_failures_witness :
  Tile_coordinates max_coordinate_libosmium 31
    (Coordinates.make (Fin 0) (Fin 0)) = AssertionFailed.
Proof.
  destruct (constructors_assertion_failures max_coordinate_libosmium
              Z equator_valid equator_to_mercator) as (H & _).
  apply (H 31%Z (Coordinates.make (Fin 0) (Fin 0))); lia.
Defined.

End LibosmiumExtras.
